(** * A trie keyed by lowercase words: model of [trie.c] and its properties

    The development embeds the trie of [src/trie/trie.c] and proves the
    properties its specification states about insertion, lookup, deletion
    with pruning, and teardown.

    Memory model.  Every [node_t] of the C program is owned by exactly one
    slot of its parent ([trie->child] owns the root), so the heap reachable
    from a [trie_t *] is a tree and is represented by an inductive value:
    a [NULL] slot is [None], an owned pointer is [Some] of the pointee.
    A [node_t *] that points into the trie is represented by the path of
    slot indices that leads to it from [trie->child] (type [ptr]); a store
    through such a pointer is the update [store_at] of the tree at that
    path.

    The allocator is a budget: each function that calls [malloc] takes the
    number [heap] of requests that will still be granted, and [malloc]
    answers [NULL] once the budget is used up.  A request of size zero
    ([delete_from_trie] on the empty key) is granted like any other.

    Keys are the characters of a C string up to its terminator; values are
    C [int]s, on which the program does no arithmetic, and are kept in [Z].
    The functions are given a trie that exists (the [trie == NULL] test of
    [add_to_trie] is passed); [delete_from_trie_ptr] is [delete_from_trie]
    on a pointer that may be [NULL], which the function does not test.

    Reading the automatic variable [starting_index_being_freed] before any
    assignment has no defined behaviour; the model keeps the variable as an
    [option] and [delete_from_trie] answers [None] when that read happens. *)

From Stdlib Require Import ZArith Ascii String.
From stdpp Require Import gmap strings list fin_maps.

Local Open Scope Z_scope.
Local Open Scope nat_scope.
Set Warnings "-register-all".

(** ** Data model *)

(** [typedef enum bool { FALSE, TRUE } boolean;] *)
Abbreviation boolean := bool (only parsing).
Abbreviation TRUE := true (only parsing).
Abbreviation FALSE := false (only parsing).

Definition NUM_CHILD : nat := 26.

(** [struct node_s]: the fields [child], [key], [value], [has_value]. *)
Inductive node_t : Type := mk_node {
  n_child : list (option node_t);
  n_key : ascii;
  n_value : Z;
  n_has_value : boolean
}.

(** [struct trie_s]: the single field [child] points to the root node. *)
Record trie_t : Type := mk_trie { t_child : node_t }.

(** A pointer to a node of the trie: the slot indices from the root. *)
Abbreviation ptr := (list nat) (only parsing).

(** [memset(node, 0, sizeof(node_t))] *)
Definition zero_node : node_t :=
  mk_node (replicate NUM_CHILD None) zero 0%Z FALSE.

(** [node->child[i]] read as an rvalue ([None] is [NULL]).  The index is
    below [NUM_CHILD] whenever the key has passed [key_permitted], which
    every caller checks first; elsewhere the model reads an empty slot and
    writes nothing. *)
Definition get_child (node : node_t) (i : nat) : option node_t :=
  default None (n_child node !! i).

(** [node->child[i] = p] *)
Definition set_child (node : node_t) (i : nat) (p : option node_t) : node_t :=
  mk_node (<[i := p]> (n_child node)) (n_key node) (n_value node)
          (n_has_value node).

Definition set_key (node : node_t) (c : ascii) : node_t :=
  mk_node (n_child node) c (n_value node) (n_has_value node).

Definition set_value (node : node_t) (v : Z) : node_t :=
  mk_node (n_child node) (n_key node) v (n_has_value node).

Definition set_has_value (node : node_t) (b : boolean) : node_t :=
  mk_node (n_child node) (n_key node) (n_value node) b.

(** [*p] for a pointer [p] into the tree rooted at [root]. *)
Fixpoint deref (root : node_t) (p : ptr) : option node_t :=
  match p with
  | [] => Some root
  | i :: p' =>
      match get_child root i with
      | Some nxt => deref nxt p'
      | None => None
      end
  end.

(** [*p = f ( *p )] for a pointer [p] into the tree rooted at [root]. *)
Fixpoint store_at (p : ptr) (f : node_t → node_t) (root : node_t) : node_t :=
  match p with
  | [] => f root
  | i :: p' =>
      match get_child root i with
      | Some nxt => set_child root i (Some (store_at p' f nxt))
      | None => root
      end
  end.

(** ** Static helpers of [trie.c] *)

(** [key_to_index]: [(unsigned char)(ch - 'a')]. *)
Definition key_to_index (ch : ascii) : nat :=
  Z.to_nat ((Z.of_nat (nat_of_ascii ch) - 97) mod 256)%Z.

(** The test [(key[i] >= 'a') && (key[i] <= 'z')] of [key_permitted]. *)
Definition lower_case (ch : ascii) : bool :=
  (97 <=? nat_of_ascii ch) && (nat_of_ascii ch <=? 122).

Arguments key_to_index : simpl never.
Arguments lower_case : simpl never.

(** [key_permitted]: every character up to the terminator is a lowercase
    letter.  The loop body never runs for the empty string. *)
Fixpoint key_permitted_loop (key : list ascii) : boolean :=
  match key with
  | [] => TRUE
  | ch :: rest => if lower_case ch then key_permitted_loop rest else FALSE
  end.

Definition key_permitted (key : string) : boolean :=
  key_permitted_loop (list_ascii_of_string key).

(** [node_has_multiple_children]: the loop visits the [NUM_CHILD] slots in
    order, counts the occupied ones and leaves as soon as the count
    exceeds one. *)
Fixpoint multiple_children_loop (slots : list (option node_t))
    (num_of_children : nat) : boolean :=
  match slots with
  | [] => FALSE
  | Some _ :: rest =>
      if 1 <? S num_of_children then TRUE
      else multiple_children_loop rest (S num_of_children)
  | None :: rest => multiple_children_loop rest num_of_children
  end.

Definition node_has_multiple_children (node : node_t) : boolean :=
  multiple_children_loop (n_child node) 0.

(** [node_has_children]: the loop leaves at the first occupied slot. *)
Fixpoint has_children_loop (slots : list (option node_t)) : boolean :=
  match slots with
  | [] => FALSE
  | Some _ :: _ => TRUE
  | None :: rest => has_children_loop rest
  end.

Definition node_has_children (node : node_t) : boolean :=
  has_children_loop (n_child node).

(** ** The allocator *)

(** [malloc], when [heap] requests can still be granted: [None] is [NULL],
    [Some heap'] a fresh block together with the budget that is left. *)
Definition malloc (heap : nat) : option nat :=
  match heap with
  | 0 => None
  | S heap' => Some heap'
  end.

(** ** [create_trie] *)

(** [None] is the result [NULL]. *)
Definition create_trie (heap : nat) : option trie_t :=
  match malloc heap with
  | None => None
  | Some heap' =>
      match malloc heap' with
      | None => None
      | Some _ => Some (mk_trie zero_node)
      end
  end.

(** ** [add_to_trie] *)

(** The [for] loop of [add_to_trie], started at [node] with the characters
    still to consume; the two assignments after the loop are its base
    case.  The result is the returned flag and the subtree rooted at [node]
    after the call: when [malloc] fails the function returns at once and
    the nodes linked so far stay. *)
Fixpoint add_loop (heap : nat) (key : list ascii) (value : Z) (node : node_t)
    : boolean * node_t :=
  match key with
  | [] => (TRUE, set_has_value (set_value node value) TRUE)
  | ch :: rest =>
      let i := key_to_index ch in
      match get_child node i with
      | None =>
          match malloc heap with
          | None => (FALSE, node)
          | Some heap' =>
              let r := add_loop heap' rest value (set_key zero_node ch) in
              (fst r, set_child node i (Some (snd r)))
          end
      | Some nxt =>
          let r := add_loop heap rest value nxt in
          (fst r, set_child node i (Some (snd r)))
      end
  end.

Definition add_to_trie (heap : nat) (key : string) (value : Z)
    (trie : trie_t) : boolean * trie_t :=
  if negb (key_permitted key) then (FALSE, trie)
  else
    let r := add_loop heap (list_ascii_of_string key) value (t_child trie) in
    (fst r, mk_trie (snd r)).

(** ** [lookup_in_trie] *)

(** The [for] loop of [lookup_in_trie]: [None] is the early [return FALSE]. *)
Fixpoint lookup_loop (key : list ascii) (node : node_t) : option node_t :=
  match key with
  | [] => Some node
  | ch :: rest =>
      match get_child node (key_to_index ch) with
      | None => None
      | Some nxt => lookup_loop rest nxt
      end
  end.

(** [Some v] stands for the result [TRUE] with [*value = v]; [None] for the
    result [FALSE], which leaves [*value] alone. *)
Definition lookup_in_trie (trie : trie_t) (key : string) : option Z :=
  if negb (key_permitted key) then None
  else
    match lookup_loop (list_ascii_of_string key) (t_child trie) with
    | None => None
    | Some node =>
        if negb (n_has_value node) then None else Some (n_value node)
    end.

(** ** [delete_from_trie] *)

(** The variables of [delete_from_trie] that the first loop updates.
    [sc_node] is the pointee of [node] and [sc_ptr] the pointer itself;
    [nodes_to_be_deleted] holds the entries of the array written so far;
    [starting_index_being_freed] is [None] until the variable is
    assigned. *)
Record scan_t : Type := mk_scan {
  sc_node : node_t;
  sc_ptr : ptr;
  nodes_to_be_deleted : list ptr;
  index_of_last_node_with_value : Z;
  starting_index_being_freed : option nat;
  index_being_freed_changed : boolean
}.

(** The first [for] loop, at iteration [i] with the characters from
    [key[i]] on; [None] is [goto error_handling]. *)
Fixpoint delete_scan (size_of_key i : Z) (key : list ascii) (st : scan_t)
    : option scan_t :=
  match key with
  | [] => Some st
  | ch :: rest =>
      let start :=
        if index_being_freed_changed st then Some (key_to_index ch)
        else starting_index_being_freed st in
      match get_child (sc_node st) (key_to_index ch) with
      | None => None
      | Some nxt =>
          let p := sc_ptr st ++ [key_to_index ch] in
          let nodes := nodes_to_be_deleted st ++ [p] in
          if (n_has_value nxt || node_has_multiple_children nxt)
             && negb (i =? size_of_key - 1)%Z
          then delete_scan size_of_key (i + 1) rest
                 (mk_scan nxt p nodes i start TRUE)
          else delete_scan size_of_key (i + 1) rest
                 (mk_scan nxt p nodes (index_of_last_node_with_value st)
                    start FALSE)
      end
  end.

(** The loop [for (i = size_of_key - 1; i > last; i--) free(nodes[i])],
    entered with [i = j - 1].  It answers the final [i] and the pointers
    handed to [free], in order; [None] is a read outside the array. *)
Fixpoint free_loop (j : nat) (last : Z) (nodes freed : list ptr)
    : option (Z * list ptr) :=
  match j with
  | 0 => if (last <? -1)%Z then None else Some ((-1)%Z, freed)
  | S j' =>
      if (last <? Z.of_nat j')%Z then
        match nodes !! j' with
        | Some p => free_loop j' last nodes (freed ++ [p])
        | None => None
        end
      else Some (Z.of_nat j', freed)
  end.

(** What a call of [delete_from_trie] leaves behind: the returned flag,
    the trie, and the node pointers it released. *)
Record del_result : Type := mk_del {
  d_ret : boolean;
  d_trie : trie_t;
  d_freed : list ptr
}.

Definition clear_value (node : node_t) : node_t :=
  set_value (set_has_value node FALSE) 0%Z.

Definition clear_slot (s : nat) (node : node_t) : node_t :=
  set_child node s None.

(** [None] stands for a run without defined behaviour. *)
Definition delete_from_trie (heap : nat) (trie : trie_t) (key : string)
    : option del_result :=
  if negb (key_permitted key) then Some (mk_del FALSE trie [])
  else
    let k := list_ascii_of_string key in
    let size_of_key := Z.of_nat (length k) in
    match malloc heap with
    | None => Some (mk_del FALSE trie [])
    | Some _ =>
        match delete_scan size_of_key 0 k
                (mk_scan (t_child trie) [] [] (-1)%Z None TRUE) with
        | None => Some (mk_del FALSE trie [])
        | Some st =>
            if negb (n_has_value (sc_node st)) then
              Some (mk_del FALSE trie [])
            else if node_has_children (sc_node st) then
              Some (mk_del TRUE
                      (mk_trie (store_at (sc_ptr st) clear_value
                                  (t_child trie)))
                      [])
            else
              match free_loop (length k) (index_of_last_node_with_value st)
                      (nodes_to_be_deleted st) [] with
              | None => None
              | Some (i, freed) =>
                  match starting_index_being_freed st with
                  | None => None
                  | Some s =>
                      if (index_of_last_node_with_value st <? 0)%Z then
                        Some (mk_del TRUE
                                (mk_trie (clear_slot s (t_child trie)))
                                freed)
                      else
                        match nodes_to_be_deleted st !! Z.to_nat i with
                        | None => None
                        | Some p =>
                            Some (mk_del TRUE
                                    (mk_trie (store_at p (clear_slot s)
                                                (t_child trie)))
                                    freed)
                        end
                  end
              end
        end
    end.

(** [delete_from_trie] on a pointer that may be [NULL] ([None]), as
    [create_trie] returns it when it fails.  The function tests the key
    first and then reads [trie->child] without a test of [trie]: on [NULL]
    a key that [key_permitted] accepts has no defined behaviour.  The
    result is the flag, the trie pointer as it was passed, and the
    pointers released. *)
Definition delete_from_trie_ptr (heap : nat) (trie : option trie_t)
    (key : string) : option (boolean * option trie_t * list ptr) :=
  match trie with
  | None =>
      if negb (key_permitted key) then Some (FALSE, None, []) else None
  | Some t =>
      match delete_from_trie heap t key with
      | None => None
      | Some r => Some (d_ret r, Some (d_trie r), d_freed r)
      end
  end.

(** ** [destroy_trie] *)

Inductive destroy_result : Type := Destroyed | AssertionFailed.

(** The loop of assertions over the root's slots. *)
Fixpoint destroy_loop (slots : list (option node_t)) : destroy_result :=
  match slots with
  | [] => Destroyed
  | None :: rest => destroy_loop rest
  | Some _ :: _ => AssertionFailed
  end.

Definition destroy_trie (trie : trie_t) : destroy_result :=
  destroy_loop (n_child (t_child trie)).

(** ** Notions used to state the properties *)

(** The slot path a key walks: one index per character. *)
Definition path_of (key : list ascii) : ptr := key_to_index <$> key.

(** A valid key of the specification: non-empty and made of the letters
    ['a'] to ['z'] only. *)
Definition valid_key (key : string) : Prop :=
  key ≠ EmptyString
  ∧ Forall (λ ch, lower_case ch = true) (list_ascii_of_string key).

(** The value stored at the end of a path, if the path exists and its
    last node carries one. *)
Definition val_at (root : node_t) (p : ptr) : option Z :=
  match deref root p with
  | Some node => if n_has_value node then Some (n_value node) else None
  | None => None
  end.

(** Number of occupied slots of a child array. *)
Fixpoint occupied (slots : list (option node_t)) : nat :=
  match slots with
  | [] => 0
  | Some _ :: rest => S (occupied rest)
  | None :: rest => occupied rest
  end.

(** The test of the first loop of [delete_from_trie]: the node carries a
    value or has more than one child. *)
Definition load_bearing (node : node_t) : bool :=
  n_has_value node || node_has_multiple_children node.

(** A node that is still needed: it carries a value or has a child. *)
Definition live (node : node_t) : bool :=
  n_has_value node || node_has_children node.

(** Every node has its [NUM_CHILD] slots: the shape the C type gives. *)
Fixpoint wf_node (node : node_t) : bool :=
  match node with
  | mk_node slots _ _ _ =>
      (length slots =? NUM_CHILD)
      && forallb (λ o, match o with
                       | None => true
                       | Some c => wf_node c
                       end) slots
  end.

Definition wf_trie (trie : trie_t) : Prop := wf_node (t_child trie) = true.

(** No node below [node] is a leaf without a value. *)
Fixpoint tidy_node (node : node_t) : bool :=
  match node with
  | mk_node slots _ _ _ =>
      forallb (λ o, match o with
                    | None => true
                    | Some c => live c && tidy_node c
                    end) slots
  end.

(** The invariant of the store: no node other than the root has
    [has_value = FALSE] and no children. *)
Definition tidy_trie (trie : trie_t) : Prop :=
  tidy_node (t_child trie) = true.

(** The same invariant read along pointers: whatever node a non-empty
    path reaches carries a value or has a child. *)
Definition no_dead_leaf (trie : trie_t) : Prop :=
  ∀ p node, p ≠ [] → deref (t_child trie) p = Some node →
            n_has_value node = true ∨ node_has_children node = true.

(** [dead_chain ys c]: from [c] the path [ys] runs through nodes that are
    not load bearing down to a node with a value and no children. *)
Fixpoint dead_chain (ys : ptr) (c : node_t) : Prop :=
  match ys with
  | [] => n_has_value c = true ∧ node_has_children c = false
  | y :: ys' =>
      load_bearing c = false ∧
      ∃ c', get_child c y = Some c' ∧ dead_chain ys' c'
  end.

(** [removed top xs n n']: [n'] is the subtree [n] once the key that walks
    [xs] from [n] has been deleted.  Either the last node keeps its
    children and only loses its value, or a chain of nodes that served this
    key alone is cut off below a node that stays: the root ([top]) or a
    load-bearing node. *)
Inductive removed : bool → ptr → node_t → node_t → Prop :=
  | removed_value top n :
      n_has_value n = true → node_has_children n = true →
      removed top [] n (clear_value n)
  | removed_cut (top : bool) s ys n c :
      get_child n s = Some c → dead_chain ys c →
      (top = false → load_bearing n = true) →
      removed top (s :: ys) n (clear_slot s n)
  | removed_below top x xs n c c' :
      get_child n x = Some c → removed false xs c c' →
      removed top (x :: xs) n (set_child n x (Some c')).

(** The non-empty prefixes of a path, shortest first: the pointers the
    first loop of [delete_from_trie] writes to [nodes_to_be_deleted]. *)
Definition prefixes (xs : ptr) : list ptr :=
  (λ j, take (S j) xs) <$> seq 0 (length xs).

(** The invariant of the first loop of [delete_from_trie] on entering
    iteration [i], for the key that walks [xs] from [root]: with [K] one
    more than [index_of_last_node_with_value], the node [K] steps down is
    load bearing (when [K > 0]), the nodes visited after it are not, and
    [starting_index_being_freed] is [xs !! K] unless it is about to be
    assigned. *)
Definition scan_inv (root : node_t) (xs : ptr) (i : nat) (st : scan_t)
    : Prop :=
  deref root (take i xs) = Some (sc_node st) ∧
  sc_ptr st = take i xs ∧
  nodes_to_be_deleted st = take i (prefixes xs) ∧
  ∃ K : nat,
    index_of_last_node_with_value st = (Z.of_nat K - 1)%Z ∧
    K ≤ i ∧ K < length xs ∧
    (K ≠ 0 →
     ∀ m, deref root (take K xs) = Some m → load_bearing m = true) ∧
    (∀ j m, K < j ≤ i → j < length xs →
            deref root (take j xs) = Some m → load_bearing m = false) ∧
    index_being_freed_changed st = bool_decide (K = i) ∧
    (K < i → starting_index_being_freed st = xs !! K).

(** The trie [create_trie] returns when its two requests are granted. *)
Definition empty_trie : trie_t := mk_trie zero_node.

(** *** Sequences of operations and the finite map they denote *)

(** A call, with the budget the allocator has when the call is made. *)
Inductive op : Type :=
  | Add (heap : nat) (key : string) (value : Z)
  | Del (heap : nat) (key : string).

Definition op_key (o : op) : string :=
  match o with Add _ k _ => k | Del _ k => k end.

(** Running a sequence of calls on a trie: the calls with the flag each
    one returned, and the trie at the end; [None] when a call has no
    defined behaviour. *)
Fixpoint run (ops : list op) (trie : trie_t)
    : option (list (op * boolean) * trie_t) :=
  match ops with
  | [] => Some ([], trie)
  | Add heap k v :: rest =>
      let r := add_to_trie heap k v trie in
      match run rest (snd r) with
      | Some (trace, trie') => Some ((Add heap k v, fst r) :: trace, trie')
      | None => None
      end
  | Del heap k :: rest =>
      match delete_from_trie heap trie k with
      | Some r =>
          match run rest (d_trie r) with
          | Some (trace, trie') => Some ((Del heap k, d_ret r) :: trace, trie')
          | None => None
          end
      | None => None
      end
  end.

(** The finite map of the specification: a successful insert binds the
    key, a successful delete removes the binding, a call that failed
    changes nothing. *)
Definition map_step (m : gmap string Z) (c : op * boolean) : gmap string Z :=
  match c with
  | (Add _ k v, true) => <[k := v]> m
  | (Del _ k, true) => delete k m
  | (_, false) => m
  end.

Definition map_run (trace : list (op * boolean)) (m : gmap string Z)
    : gmap string Z :=
  foldl map_step m trace.

(** A sequence of calls on valid keys only. *)
Definition valid_ops (ops : list op) : Prop :=
  Forall (λ o, valid_key (op_key o)) ops.

(** The trie [trie] stands for the finite map [m]: it is well shaped and
    finds under every valid key what the map binds to it. *)
Definition represents (trie : trie_t) (m : gmap string Z) : Prop :=
  wf_trie trie
  ∧ ∀ key, valid_key key → lookup_in_trie trie key = m !! key.

(** The flags of a trace are those the finite map predicts: a delete
    succeeds exactly when its block is granted and the key is bound, an
    insert succeeds at least when it has a block for each character. *)
Fixpoint trace_sound (m : gmap string Z) (trace : list (op * boolean))
    : Prop :=
  match trace with
  | [] => True
  | c :: rest =>
      match fst c with
      | Add heap k _ => String.length k ≤ heap → snd c = true
      | Del heap k =>
          snd c = bool_decide (0 < heap) && bool_decide (is_Some (m !! k))
      end
      ∧ trace_sound (map_step m c) rest
  end.

(** No insert of the trace failed: none ran out of memory, none was
    given a key it rejects. *)
Definition no_failed_add (trace : list (op * boolean)) : Prop :=
  Forall (λ c, match c with
               | (Add _ _ _, false) => False
               | _ => True
               end) trace.

(** The letter of a slot index. *)
Definition index_to_key (i : nat) : ascii := ascii_of_nat (97 + i).

(** The number of nodes [add_to_trie] has to allocate for the characters
    [key] from [node] on: none while the walk finds the slots occupied,
    and one for each character left once it meets an empty slot. *)
Fixpoint missing (key : list ascii) (node : node_t) : nat :=
  match key with
  | [] => 0
  | ch :: rest =>
      match get_child node (key_to_index ch) with
      | Some nxt => missing rest nxt
      | None => length key
      end
  end.

(** What the fields [key], [value] and [has_value] of the node in slot [i]
    of its parent hold when only [add_to_trie] and [delete_from_trie] have
    written them: the letter of the slot, and the value [0] of [memset]
    and of a deletion while the node carries no value. *)
Definition proper (i : nat) (c : node_t) : Prop :=
  n_key c = index_to_key i ∧ (n_has_value c = false → n_value c = 0%Z).

(** Every node below [node] is [proper] for the slot it hangs in. *)
Definition labelled (node : node_t) : Prop :=
  ∀ p i m, deref node (p ++ [i]) = Some m → proper i m.

(** The tries the calls on valid keys produce from a fresh one, as long as
    no insert fails: well shaped, without a dead leaf, with proper nodes,
    and with the root node as [create_trie] left it apart from its
    links. *)
Definition canonical (trie : trie_t) : Prop :=
  wf_trie trie ∧ tidy_trie trie ∧ labelled (t_child trie)
  ∧ n_key (t_child trie) = zero
  ∧ n_value (t_child trie) = 0%Z
  ∧ n_has_value (t_child trie) = false.

(** ** Slots and paths *)

Lemma get_child_lt node i c :
  get_child node i = Some c → i < length (n_child node).
Proof.
  unfold get_child. intros H. apply lookup_lt_is_Some.
  destruct (n_child node !! i); [eauto | discriminate].
Qed.

Lemma get_child_lookup node i c :
  get_child node i = Some c ↔ n_child node !! i = Some (Some c).
Proof.
  unfold get_child.
  destruct (n_child node !! i) as [[?|]|]; simpl; split; congruence.
Qed.

Lemma get_child_set_child_eq node i p :
  i < length (n_child node) → get_child (set_child node i p) i = p.
Proof.
  intros H. unfold get_child, set_child. simpl.
  by rewrite list_lookup_insert_eq.
Qed.

Lemma get_child_set_child_ne node i j p :
  i ≠ j → get_child (set_child node i p) j = get_child node j.
Proof.
  intros H. unfold get_child, set_child. simpl.
  by rewrite list_lookup_insert_ne.
Qed.

Lemma get_child_clear_slot_eq node s : get_child (clear_slot s node) s = None.
Proof.
  unfold clear_slot. destruct (decide (s < length (n_child node))).
  - by apply get_child_set_child_eq.
  - unfold get_child, set_child. simpl.
    rewrite list_insert_ge by lia. rewrite lookup_ge_None_2 by lia. done.
Qed.

Lemma get_child_zero_node ch i : get_child (set_key zero_node ch) i = None.
Proof.
  unfold get_child, set_key, zero_node. cbn [n_child].
  destruct (replicate NUM_CHILD (@None node_t) !! i) eqn:E; [|done].
  by apply lookup_replicate in E as [-> _].
Qed.

Lemma deref_app root p q :
  deref root (p ++ q) = deref root p ≫= λ n, deref n q.
Proof.
  revert root. induction p as [|i p IH]; intros root; simpl; [done|].
  destruct (get_child root i); simpl; [apply IH | done].
Qed.

Lemma lookup_loop_deref key node :
  lookup_loop key node = deref node (path_of key).
Proof.
  revert node. induction key as [|ch key IH]; intros node; simpl; [done|].
  destruct (get_child node (key_to_index ch)); [apply IH | done].
Qed.

(** ** Characters and keys *)

Lemma lower_case_index ch :
  lower_case ch = true →
  key_to_index ch = nat_of_ascii ch - 97 ∧ key_to_index ch < NUM_CHILD.
Proof.
  unfold lower_case, key_to_index, NUM_CHILD. intros H.
  apply andb_true_iff in H as [H1 H2].
  apply Nat.leb_le in H1, H2.
  rewrite Z.mod_small by lia. lia.
Qed.

Lemma key_to_index_inj a b :
  lower_case a = true → lower_case b = true →
  key_to_index a = key_to_index b → a = b.
Proof.
  intros Ha Hb H.
  destruct (lower_case_index a Ha) as [Ea _], (lower_case_index b Hb) as [Eb _].
  unfold lower_case in Ha, Hb.
  apply andb_true_iff in Ha as [Ha _], Hb as [Hb _].
  apply Nat.leb_le in Ha, Hb.
  rewrite <- (ascii_nat_embedding a), <- (ascii_nat_embedding b).
  f_equal. lia.
Qed.

Lemma path_of_inj k1 k2 :
  Forall (λ ch, lower_case ch = true) k1 →
  Forall (λ ch, lower_case ch = true) k2 →
  path_of k1 = path_of k2 → k1 = k2.
Proof.
  intros H1. revert k2. induction H1 as [|a k1 Ha _ IH]; intros k2 H2 E.
  - destruct k2; [done | discriminate].
  - destruct H2 as [|b k2 Hb H2]; [discriminate|].
    simpl in E. injection E as E1 E2.
    f_equal; [by apply key_to_index_inj | by apply IH].
Qed.

Lemma key_permitted_loop_Forall key :
  key_permitted_loop key = true ↔ Forall (λ ch, lower_case ch = true) key.
Proof.
  induction key as [|ch key IH]; simpl.
  - split; [constructor | done].
  - destruct (lower_case ch) eqn:E.
    + rewrite IH. split; [by constructor | by inversion 1].
    + split; [done | inversion 1; congruence].
Qed.

Lemma valid_key_permitted key : valid_key key → key_permitted key = true.
Proof. intros [_ H]. by apply key_permitted_loop_Forall. Qed.

Lemma valid_key_cons key :
  valid_key key →
  ∃ ch rest, list_ascii_of_string key = ch :: rest ∧ lower_case ch = true
             ∧ Forall (λ ch, lower_case ch = true) rest.
Proof.
  intros [Hne H]. destruct key as [|ch rest]; [done|].
  simpl in *. inversion H; subst. eauto.
Qed.

Lemma list_ascii_of_string_inj k1 k2 :
  list_ascii_of_string k1 = list_ascii_of_string k2 → k1 = k2.
Proof.
  intros H. rewrite <- (string_of_list_ascii_of_string k1),
    <- (string_of_list_ascii_of_string k2). by rewrite H.
Qed.

Lemma valid_key_path_inj k1 k2 :
  valid_key k1 → valid_key k2 →
  path_of (list_ascii_of_string k1) = path_of (list_ascii_of_string k2) →
  k1 = k2.
Proof.
  intros [_ H1] [_ H2] E. apply list_ascii_of_string_inj.
  by apply path_of_inj.
Qed.

Lemma lookup_in_trie_val_at trie key :
  key_permitted key = true →
  lookup_in_trie trie key =
    val_at (t_child trie) (path_of (list_ascii_of_string key)).
Proof.
  intros H. unfold lookup_in_trie, val_at. rewrite H. simpl.
  rewrite lookup_loop_deref.
  destruct (deref _ _) as [n|]; [|done]. by destruct (n_has_value n).
Qed.

(** ** Counting the occupied slots *)

Lemma multiple_children_loop_spec slots k :
  k ≤ 1 → multiple_children_loop slots k = true ↔ 2 ≤ k + occupied slots.
Proof.
  revert k. induction slots as [|[c|] slots IH]; intros k Hk; simpl.
  - split; [done | lia].
  - destruct k as [|k]; simpl.
    + rewrite IH by lia. lia.
    + split; [lia | done].
  - by apply IH.
Qed.

Lemma has_children_loop_spec slots :
  has_children_loop slots = true ↔ 1 ≤ occupied slots.
Proof.
  induction slots as [|[c|] slots IH]; simpl.
  - split; [done | lia].
  - split; [lia | done].
  - done.
Qed.

Lemma occupied_clear (slots : list (option node_t)) i c :
  slots !! i = Some (Some c) →
  occupied slots = S (occupied (<[i := None]> slots)).
Proof.
  revert i. induction slots as [|o slots IH]; intros [|i] H; simpl in *;
    try discriminate.
  - by injection H as ->.
  - destruct o; rewrite (IH i H); done.
Qed.

Lemma occupied_pos (slots : list (option node_t)) i c :
  slots !! i = Some (Some c) → 1 ≤ occupied slots.
Proof. intros H. rewrite (occupied_clear _ _ _ H). lia. Qed.

Lemma occupied_pos_inv (slots : list (option node_t)) :
  1 ≤ occupied slots → ∃ i c, slots !! i = Some (Some c).
Proof.
  induction slots as [|[c|] slots IH]; simpl; intros H.
  - lia.
  - by exists 0, c.
  - destruct (IH H) as (i & c & E). by exists (S i), c.
Qed.

Lemma occupied_two (slots : list (option node_t)) i j c c' :
  i ≠ j → slots !! i = Some (Some c) → slots !! j = Some (Some c') →
  2 ≤ occupied slots.
Proof.
  intros Hij Hi Hj. rewrite (occupied_clear _ _ _ Hi).
  assert (1 ≤ occupied (<[i := None]> slots)); [|lia].
  apply (occupied_pos _ j c'). by rewrite list_lookup_insert_ne.
Qed.

Lemma has_children_get node i c :
  get_child node i = Some c → node_has_children node = true.
Proof.
  intros H. apply has_children_loop_spec.
  apply get_child_lookup in H. by eapply occupied_pos.
Qed.

Lemma no_children_get node i :
  node_has_children node = false → get_child node i = None.
Proof.
  intros H. destruct (get_child node i) eqn:E; [|done].
  apply has_children_get in E. congruence.
Qed.

Lemma has_children_inv node :
  node_has_children node = true → ∃ i c, get_child node i = Some c.
Proof.
  intros H. apply has_children_loop_spec, occupied_pos_inv in H
    as (i & c & E).
  exists i, c. by apply get_child_lookup.
Qed.

Lemma single_child node i j c :
  node_has_multiple_children node = false →
  get_child node i = Some c → i ≠ j → get_child node j = None.
Proof.
  intros Hm Hi Hij. destruct (get_child node j) as [c'|] eqn:Hj; [|done].
  apply get_child_lookup in Hi, Hj.
  pose proof (occupied_two _ _ _ _ _ Hij Hi Hj) as H2.
  assert (node_has_multiple_children node = true); [|congruence].
  apply multiple_children_loop_spec; lia.
Qed.

Lemma multiple_children_clear node s :
  node_has_multiple_children node = true →
  node_has_children (clear_slot s node) = true.
Proof.
  intros H. apply multiple_children_loop_spec in H; [|lia].
  apply has_children_loop_spec. unfold clear_slot. simpl.
  destruct (n_child node !! s) as [[c|]|] eqn:E.
  - rewrite (occupied_clear _ _ _ E) in H. lia.
  - rewrite list_insert_id by done. lia.
  - rewrite list_insert_ge; [lia|]. by apply lookup_ge_None.
Qed.


Lemma has_children_set node i c :
  i < length (n_child node) →
  node_has_children (set_child node i (Some c)) = true.
Proof.
  intros H. apply (has_children_get _ i c). by apply get_child_set_child_eq.
Qed.

(** ** Shape of the nodes *)

Lemma forallb_slots (f : node_t → bool) (slots : list (option node_t)) :
  forallb (λ o, match o with None => true | Some c => f c end) slots = true
  ↔ ∀ i c, slots !! i = Some (Some c) → f c = true.
Proof.
  rewrite forallb_forall. split.
  - intros H i c E. apply (H (Some c)). apply list_elem_of_In.
    apply list_elem_of_lookup. eauto.
  - intros H [c|] Hin; [|done].
    apply list_elem_of_In, list_elem_of_lookup in Hin as [i E]. eauto.
Qed.

Lemma wf_node_unfold node :
  wf_node node = true ↔
  length (n_child node) = NUM_CHILD ∧
  ∀ i c, get_child node i = Some c → wf_node c = true.
Proof.
  destruct node as [slots k v hv]. simpl.
  rewrite andb_true_iff, Nat.eqb_eq, forallb_slots.
  split; intros [H1 H2]; split; try done; intros i c E; apply (H2 i c);
    by apply (get_child_lookup (mk_node slots k v hv)).
Qed.

Lemma tidy_node_unfold node :
  tidy_node node = true ↔
  ∀ i c, get_child node i = Some c → live c = true ∧ tidy_node c = true.
Proof.
  destruct node as [slots k v hv]. simpl.
  rewrite (forallb_slots (λ c, live c && tidy_node c)).
  split; intros H i c E.
  - apply andb_true_iff, (H i c).
    by apply (get_child_lookup (mk_node slots k v hv)).
  - apply andb_true_iff, (H i c).
    by apply (get_child_lookup (mk_node slots k v hv)).
Qed.

Lemma wf_zero_node ch : wf_node (set_key zero_node ch) = true.
Proof. reflexivity. Qed.

Lemma wf_node_length node :
  wf_node node = true → length (n_child node) = NUM_CHILD.
Proof. intros H. by apply wf_node_unfold in H as [H _]. Qed.

Lemma wf_node_child node i c :
  wf_node node = true → get_child node i = Some c → wf_node c = true.
Proof. intros H. apply wf_node_unfold in H as [_ H]. apply H. Qed.

Lemma wf_set_child node i o :
  wf_node node = true → (∀ c, o = Some c → wf_node c = true) →
  wf_node (set_child node i o) = true.
Proof.
  intros H Ho. apply wf_node_unfold in H as [H1 H2]. apply wf_node_unfold.
  split.
  - unfold set_child. simpl. by rewrite length_insert.
  - intros j c E. destruct (decide (i = j)) as [<-|Hne].
    + destruct (decide (i < length (n_child node))) as [Hlt|Hge].
      * rewrite get_child_set_child_eq in E by done. by apply Ho.
      * apply get_child_lt in E. unfold set_child in E. simpl in E.
        rewrite length_insert in E. lia.
    + rewrite get_child_set_child_ne in E by done. eauto.
Qed.

Lemma tidy_set_child node i o :
  tidy_node node = true →
  (∀ c, o = Some c → live c = true ∧ tidy_node c = true) →
  tidy_node (set_child node i o) = true.
Proof.
  intros H Ho. rewrite tidy_node_unfold in H. apply tidy_node_unfold.
  intros j c E. destruct (decide (i = j)) as [<-|Hne].
  - destruct (decide (i < length (n_child node))) as [Hlt|Hge].
    + rewrite get_child_set_child_eq in E by done. by apply Ho.
    + apply get_child_lt in E. unfold set_child in E. simpl in E.
      rewrite length_insert in E. lia.
  - rewrite get_child_set_child_ne in E by done. eauto.
Qed.

Lemma tidy_node_fields node v b :
  tidy_node (set_has_value (set_value node v) b) = tidy_node node.
Proof. by destruct node. Qed.

Lemma wf_node_fields node v b :
  wf_node (set_has_value (set_value node v) b) = wf_node node.
Proof. by destruct node. Qed.

(** ** Reading values along a path *)

Lemma val_at_nil node :
  val_at node [] = if n_has_value node then Some (n_value node) else None.
Proof. done. Qed.

Lemma val_at_cons node y q :
  val_at node (y :: q) =
  match get_child node y with Some c => val_at c q | None => None end.
Proof. unfold val_at. simpl. by destruct (get_child node y). Qed.

Lemma val_at_zero_node ch q : val_at (set_key zero_node ch) q = None.
Proof.
  destruct q as [|y q]; [done|].
  by rewrite val_at_cons, get_child_zero_node.
Qed.

Lemma val_at_set_child_nil node i o :
  val_at (set_child node i o) [] = val_at node [].
Proof. done. Qed.

(** ** [add_to_trie]: the loop *)

Section add_loop_facts.
Context (value : Z).

(** One round of the loop: either the slot is empty and no block is left,
    or the loop goes on below the node [nxt] of the slot, old or new. *)
Lemma add_loop_cons heap ch rest node :
  (get_child node (key_to_index ch) = None ∧ heap = 0
   ∧ add_loop heap (ch :: rest) value node = (FALSE, node))
  ∨ ∃ nxt heap',
      add_loop heap (ch :: rest) value node =
        (fst (add_loop heap' rest value nxt),
         set_child node (key_to_index ch)
           (Some (snd (add_loop heap' rest value nxt))))
      ∧ ((get_child node (key_to_index ch) = Some nxt ∧ heap' = heap)
         ∨ (get_child node (key_to_index ch) = None
            ∧ nxt = set_key zero_node ch ∧ heap = S heap')).
Proof.
  cbn [add_loop].
  destruct (get_child node (key_to_index ch)) as [nxt|] eqn:E.
  - right. exists nxt, heap. split; [done|]. by left.
  - destruct heap as [|heap']; simpl.
    + by left.
    + right. exists (set_key zero_node ch), heap'. split; [done|]. by right.
Qed.

(** With a block for each character the loop runs to its end. *)
Lemma add_loop_enough heap key node :
  length key ≤ heap → fst (add_loop heap key value node) = TRUE.
Proof.
  revert heap node. induction key as [|ch rest IH]; intros heap node Hh.
  { done. }
  simpl in Hh.
  destruct (add_loop_cons heap ch rest node)
    as [(_ & -> & _)|(nxt & heap' & -> & Hnxt)]; [lia|].
  simpl. apply IH. destruct Hnxt as [[_ ->]|(_ & _ & ->)]; lia.
Qed.

Lemma add_loop_val_at heap key node q :
  wf_node node = true → Forall (λ ch, lower_case ch = true) key →
  val_at (snd (add_loop heap key value node)) q =
    if fst (add_loop heap key value node) && bool_decide (q = path_of key)
    then Some value else val_at node q.
Proof.
  intros Hwf Hk. revert heap node q Hwf.
  induction Hk as [|ch rest Hch _ IH]; intros heap node q Hwf.
  - destruct q as [|y q]; simpl; [done|]. by rewrite !val_at_cons.
  - destruct (add_loop_cons heap ch rest node)
      as [(_ & _ & ->)|(nxt & heap' & -> & Hnxt)]; [done|].
    pose proof (lower_case_index ch Hch) as [_ Hi].
    rewrite <- (wf_node_length _ Hwf) in Hi.
    cbn [fst snd].
    change (path_of (ch :: rest)) with (key_to_index ch :: path_of rest).
    destruct q as [|y q].
    { rewrite bool_decide_false by done. by rewrite andb_false_r. }
    rewrite !val_at_cons.
    destruct (decide (y = key_to_index ch)) as [->|Hne].
    + rewrite get_child_set_child_eq by done.
      assert (wf_node nxt = true) as Hwf'.
      { destruct Hnxt as [[E _]|(_ & -> & _)];
          [by eapply wf_node_child | apply wf_zero_node]. }
      assert (match get_child node (key_to_index ch) with
              | Some c => val_at c q
              | None => None
              end = val_at nxt q) as ->.
      { destruct Hnxt as [[-> _]|(-> & -> & _)];
          [done | by rewrite val_at_zero_node]. }
      rewrite (IH heap' nxt q Hwf').
      destruct (decide (q = path_of rest)) as [->|Hq].
      * by rewrite !bool_decide_true.
      * by rewrite !bool_decide_false by congruence.
    + rewrite get_child_set_child_ne by done.
      rewrite bool_decide_false by congruence. by rewrite andb_false_r.
Qed.

Lemma add_loop_deref_mono heap key node q :
  wf_node node = true → Forall (λ ch, lower_case ch = true) key →
  is_Some (deref node q) →
  is_Some (deref (snd (add_loop heap key value node)) q).
Proof.
  intros Hwf Hk. revert heap node q Hwf.
  induction Hk as [|ch rest Hch _ IH]; intros heap node q Hwf Hq.
  - destruct q as [|y q]; simpl in *; [eauto | done].
  - destruct (add_loop_cons heap ch rest node)
      as [(_ & _ & ->)|(nxt & heap' & -> & Hnxt)]; [done|].
    pose proof (lower_case_index ch Hch) as [_ Hi].
    rewrite <- (wf_node_length _ Hwf) in Hi.
    cbn [snd]. destruct q as [|y q]; [simpl; eauto|].
    simpl in *. destruct (decide (y = key_to_index ch)) as [->|Hne].
    + rewrite get_child_set_child_eq by done.
      destruct Hnxt as [[E _]|(E & _ & _)]; rewrite E in Hq.
      * apply IH; [by eapply wf_node_child | done].
      * by destruct Hq.
    + by rewrite get_child_set_child_ne.
Qed.

Lemma add_loop_wf heap key node :
  wf_node node = true → Forall (λ ch, lower_case ch = true) key →
  wf_node (snd (add_loop heap key value node)) = true.
Proof.
  intros Hwf Hk. revert heap node Hwf.
  induction Hk as [|ch rest Hch _ IH]; intros heap node Hwf.
  - cbn [add_loop snd]. by rewrite wf_node_fields.
  - destruct (add_loop_cons heap ch rest node)
      as [(_ & _ & ->)|(nxt & heap' & -> & Hnxt)]; [done|].
    cbn [snd]. apply wf_set_child; [done|]. intros c [= <-]. apply IH.
    destruct Hnxt as [[E _]|(_ & -> & _)];
      [by eapply wf_node_child | apply wf_zero_node].
Qed.

Lemma add_loop_live heap key node :
  wf_node node = true → Forall (λ ch, lower_case ch = true) key →
  fst (add_loop heap key value node) = TRUE →
  live (snd (add_loop heap key value node)) = true.
Proof.
  intros Hwf Hk. destruct Hk as [|ch rest Hch Hk]; intros Hok.
  - done.
  - destruct (add_loop_cons heap ch rest node)
      as [(_ & _ & E)|(nxt & heap' & E & Hnxt)]; rewrite E in Hok |- *;
      [done|].
    pose proof (lower_case_index ch Hch) as [_ Hi].
    rewrite <- (wf_node_length _ Hwf) in Hi.
    cbn [snd]. unfold live. rewrite has_children_set by done.
    apply orb_true_r.
Qed.

Lemma add_loop_tidy heap key node :
  wf_node node = true → Forall (λ ch, lower_case ch = true) key →
  fst (add_loop heap key value node) = TRUE →
  tidy_node node = true →
  tidy_node (snd (add_loop heap key value node)) = true.
Proof.
  intros Hwf Hk. revert heap node Hwf.
  induction Hk as [|ch rest Hch Hk IH]; intros heap node Hwf Hok Ht.
  - cbn [add_loop snd]. by rewrite tidy_node_fields.
  - destruct (add_loop_cons heap ch rest node)
      as [(_ & _ & E)|(nxt & heap' & E & Hnxt)]; rewrite E in Hok |- *;
      [done|].
    cbn [fst snd] in *.
    assert (wf_node nxt = true ∧ tidy_node nxt = true) as [Hwf' Ht'].
    { destruct Hnxt as [[E' _]|(_ & -> & _)]; [|done].
      split; [by eapply wf_node_child|].
      rewrite tidy_node_unfold in Ht. by apply (Ht _ _ E'). }
    apply tidy_set_child; [done|]. intros c [= <-]. split.
    + by apply add_loop_live.
    + by apply IH.
Qed.
End add_loop_facts.

(** ** What a deletion does to a subtree *)

Lemma dead_chain_val_at ys c q :
  dead_chain ys c → q ≠ ys → val_at c q = None.
Proof.
  revert c q. induction ys as [|y ys IH]; intros c q H Hq; simpl in H.
  - destruct H as [_ Hc]. destruct q as [|z q]; [done|].
    by rewrite val_at_cons, no_children_get.
  - destruct H as [Hlb (c' & Hc' & Hd)].
    apply orb_false_iff in Hlb as [Hv Hm].
    destruct q as [|z q]; [by rewrite val_at_nil, Hv|].
    rewrite val_at_cons. destruct (decide (y = z)) as [<-|Hne].
    + rewrite Hc'. apply IH; [done | congruence].
    + by rewrite (single_child _ _ _ _ Hm Hc' Hne).
Qed.

Lemma dead_chain_deref ys c q :
  dead_chain ys c → is_Some (deref c q) → q `prefix_of` ys.
Proof.
  revert c q. induction ys as [|y ys IH]; intros c q H Hq; simpl in H.
  - destruct H as [_ Hc]. destruct q as [|z q]; [done|].
    simpl in Hq. rewrite no_children_get in Hq by done. by destruct Hq.
  - destruct H as [Hlb (c' & Hc' & Hd)].
    apply orb_false_iff in Hlb as [Hv Hm].
    destruct q as [|z q]; [apply prefix_nil|].
    simpl in Hq. destruct (decide (y = z)) as [<-|Hne].
    + rewrite Hc' in Hq. apply prefix_cons. by eapply IH.
    + rewrite (single_child _ _ _ _ Hm Hc' Hne) in Hq. by destruct Hq.
Qed.

Lemma dead_chain_target ys c :
  dead_chain ys c →
  ∃ t, deref c ys = Some t ∧ n_has_value t = true
       ∧ node_has_children t = false.
Proof.
  revert c. induction ys as [|y ys IH]; intros c H; simpl in *.
  - destruct H. eauto.
  - destruct H as [_ (c' & -> & Hd)]. by apply IH.
Qed.

Lemma removed_target top xs n n' :
  removed top xs n n' →
  ∃ t, deref n xs = Some t ∧ n_has_value t = true.
Proof.
  induction 1 as [top n Hv Hc|top s ys n c Hs Hd _|top x xs n c c' Hx _ IH];
    simpl.
  - eauto.
  - rewrite Hs. destruct (dead_chain_target _ _ Hd) as (t & ? & ? & _). eauto.
  - by rewrite Hx.
Qed.

Lemma removed_val_at top xs n n' q :
  removed top xs n n' →
  val_at n' q = if decide (q = xs) then None else val_at n q.
Proof.
  intros H. revert q.
  induction H as [top n Hv Hc|top s ys n c Hs Hd _|top x xs n c c' Hx _ IH];
    intros q.
  - destruct q as [|y q]; [done|].
    rewrite decide_False by done. by rewrite !val_at_cons.
  - destruct q as [|y q]; [by rewrite decide_False|].
    rewrite !val_at_cons. destruct (decide (y = s)) as [->|Hne].
    + rewrite get_child_clear_slot_eq, Hs.
      destruct (decide (q = ys)) as [->|Hq].
      * by rewrite decide_True.
      * rewrite decide_False by congruence.
        symmetry. by eapply dead_chain_val_at.
    + unfold clear_slot. rewrite get_child_set_child_ne by done.
      by rewrite decide_False by congruence.
  - destruct q as [|y q]; [by rewrite decide_False|].
    rewrite !val_at_cons. destruct (decide (y = x)) as [->|Hne].
    + rewrite get_child_set_child_eq by (by eapply get_child_lt).
      rewrite Hx, IH.
      destruct (decide (q = xs)) as [->|Hq].
      * by rewrite !decide_True.
      * by rewrite !decide_False by congruence.
    + rewrite get_child_set_child_ne by done.
      by rewrite decide_False by congruence.
Qed.

(** The only nodes a deletion takes away lie on the path of the key. *)
Lemma removed_deref top xs n n' q :
  removed top xs n n' → is_Some (deref n q) →
  is_Some (deref n' q) ∨ (q ≠ [] ∧ q `prefix_of` xs).
Proof.
  intros H. revert q.
  induction H as [top n Hv Hc|top s ys n c Hs Hd _|top x xs n c c' Hx _ IH];
    intros q Hq.
  - left. destruct q as [|y q]; [by eexists|]. done.
  - destruct q as [|y q]; [left; by eexists|].
    simpl in Hq |- *. destruct (decide (y = s)) as [->|Hne].
    + right. split; [done|]. rewrite Hs in Hq.
      apply prefix_cons. by eapply dead_chain_deref.
    + left. unfold clear_slot. by rewrite get_child_set_child_ne.
  - destruct q as [|y q]; [left; by eexists|].
    simpl in Hq |- *. destruct (decide (y = x)) as [->|Hne].
    + rewrite get_child_set_child_eq by (by eapply get_child_lt).
      rewrite Hx in Hq. destruct (IH q Hq) as [?|[? ?]]; [by left|].
      right. split; [done | by apply prefix_cons].
    + left. by rewrite get_child_set_child_ne.
Qed.

(** A deletion creates no node. *)
Lemma removed_deref_back top xs n n' q :
  removed top xs n n' → is_Some (deref n' q) → is_Some (deref n q).
Proof.
  intros H. revert q.
  induction H as [top n Hv Hc|top s ys n c Hs Hd _|top x xs n c c' Hx _ IH];
    intros q Hq.
  - destruct q as [|y q]; [by eexists | done].
  - destruct q as [|y q]; [by eexists|].
    simpl in Hq |- *. destruct (decide (y = s)) as [->|Hne].
    + rewrite get_child_clear_slot_eq in Hq. by destruct Hq.
    + unfold clear_slot in Hq. by rewrite get_child_set_child_ne in Hq.
  - destruct q as [|y q]; [by eexists|].
    simpl in Hq |- *. destruct (decide (y = x)) as [->|Hne].
    + rewrite get_child_set_child_eq in Hq by (by eapply get_child_lt).
      rewrite Hx. by apply IH.
    + by rewrite get_child_set_child_ne in Hq.
Qed.

Lemma removed_wf top xs n n' :
  removed top xs n n' → wf_node n = true → wf_node n' = true.
Proof.
  induction 1 as [top n Hv Hc|top s ys n c Hs Hd _|top x xs n c c' Hx _ IH];
    intros Hwf.
  - unfold clear_value. by destruct n.
  - by apply wf_set_child.
  - apply wf_set_child; [done|]. intros ? [= <-].
    apply IH. by eapply wf_node_child.
Qed.

Lemma removed_live xs n n' :
  removed false xs n n' → live n' = true.
Proof.
  inversion 1 as [top n0 Hv Hc|top s ys n0 c Hs Hd Hlb|top x xs0 n0 c c' Hx Hr];
    subst; unfold live.
  - apply orb_true_iff. right. by destruct n.
  - specialize (Hlb eq_refl). apply orb_true_iff in Hlb as [Hv|Hm].
    + apply orb_true_iff. left. done.
    + apply orb_true_iff. right. by apply multiple_children_clear.
  - apply orb_true_iff. right. apply has_children_set. by eapply get_child_lt.
Qed.

Lemma removed_tidy top xs n n' :
  removed top xs n n' → tidy_node n = true → tidy_node n' = true.
Proof.
  induction 1 as [top n Hv Hc|top s ys n c Hs Hd _|top x xs n c c' Hx Hr IH];
    intros Ht.
  - unfold clear_value. by destruct n.
  - by apply tidy_set_child.
  - apply tidy_set_child; [done|]. intros ? [= <-]. split.
    + by eapply removed_live.
    + apply IH. rewrite tidy_node_unfold in Ht. by apply (Ht _ _ Hx).
Qed.

(** ** From the two stores of [delete_from_trie] to [removed] *)

Lemma store_at_clear_value_removed top xs n t :
  deref n xs = Some t → n_has_value t = true → node_has_children t = true →
  removed top xs n (store_at xs clear_value n).
Proof.
  revert top n. induction xs as [|x xs IH]; intros top n Ht Hv Hc; simpl in *.
  - injection Ht as ->. by constructor.
  - destruct (get_child n x) as [c|] eqn:Hx; [|done].
    eapply removed_below; [done|]. by apply IH.
Qed.

Lemma dead_chain_intro ys c t :
  deref c ys = Some t → n_has_value t = true → node_has_children t = false →
  (∀ j m, j < length ys → deref c (take j ys) = Some m →
          load_bearing m = false) →
  dead_chain ys c.
Proof.
  revert c. induction ys as [|y ys IH]; intros c Ht Hv Hc Hlb; simpl in *.
  - by injection Ht as ->.
  - split; [apply (Hlb 0); [lia | done]|].
    destruct (get_child c y) as [c'|] eqn:Hy; [|done].
    exists c'. split; [done|]. apply IH; try done.
    intros j m Hj Hm. apply (Hlb (S j)); [lia|]. simpl. by rewrite Hy.
Qed.

(** The second store: the slot [s = xs !! K] of the node reached by the
    first [K] indices is cleared, where that node is the root ([K = 0]) or
    load bearing, and every node further down the path, the last one
    apart, is not. *)
Lemma store_at_clear_slot_removed K top xs n s t :
  xs !! K = Some s →
  deref n xs = Some t → n_has_value t = true → node_has_children t = false →
  (∀ j m, K < j < length xs → deref n (take j xs) = Some m →
          load_bearing m = false) →
  (top = false ∨ K ≠ 0 →
   ∀ m, deref n (take K xs) = Some m → load_bearing m = true) →
  removed top xs n (store_at (take K xs) (clear_slot s) n).
Proof.
  revert top xs n. induction K as [|K IH]; intros top xs n Hs Ht Hv Hc Hlo Hhi.
  - destruct xs as [|x ys]; [done|]. injection Hs as ->. simpl in *.
    destruct (get_child n s) as [c|] eqn:Hc'; [|done].
    eapply removed_cut; [done| |by eauto].
    eapply dead_chain_intro; try done.
    intros j m Hj Hm. apply (Hlo (S j)); [lia|]. simpl. by rewrite Hc'.
  - destruct xs as [|x xs]; [done|]. simpl in *.
    destruct (get_child n x) as [c|] eqn:Hx; [|done].
    eapply removed_below; [done|]. apply IH; try done.
    + intros j m Hj Hm. apply (Hlo (S j)); [lia|]. simpl. by rewrite Hx.
    + intros _ m Hm. apply Hhi; [by right | done].
Qed.

(** ** The loops of [delete_from_trie] *)

Lemma prefixes_length xs : length (prefixes xs) = length xs.
Proof. unfold prefixes. by rewrite length_fmap, length_seq. Qed.

Lemma prefixes_lookup xs j :
  j < length xs → prefixes xs !! j = Some (take (S j) xs).
Proof.
  intros H. unfold prefixes. rewrite list_lookup_fmap.
  rewrite lookup_seq_lt by done. done.
Qed.

Lemma free_loop_spec K nodes j freed :
  K ≤ j ≤ length nodes →
  free_loop j (Z.of_nat K - 1) nodes freed =
    Some ((Z.of_nat K - 1)%Z, freed ++ reverse (drop K (take j nodes))).
Proof.
  revert freed. induction j as [|j IH]; intros freed Hj; simpl.
  - assert (K = 0) as -> by lia. simpl. by rewrite app_nil_r.
  - destruct (decide (K ≤ j)) as [Hle|Hgt].
    + assert ((Z.of_nat K - 1 <? Z.of_nat j)%Z = true) as ->
        by (apply Z.ltb_lt; lia).
      destruct (lookup_lt_is_Some_2 nodes j) as [p Hp]; [lia|].
      rewrite Hp, IH by lia.
      rewrite (take_S_r _ _ _ Hp), drop_app_le
        by (rewrite length_take; lia).
      by rewrite reverse_snoc, <- app_assoc.
    + assert (K = S j) as -> by lia.
      assert ((Z.of_nat (S j) - 1 <? Z.of_nat j)%Z = false) as ->
        by (apply Z.ltb_ge; lia).
      rewrite drop_ge by (rewrite length_take; lia).
      rewrite app_nil_r. do 2 f_equal. lia.
Qed.

Lemma delete_scan_spec root key rest :
  ∀ i st,
    drop i key = rest → i ≤ length key →
    scan_inv root (path_of key) i st →
    match deref (sc_node st) (path_of rest) with
    | None =>
        delete_scan (Z.of_nat (length key)) (Z.of_nat i) rest st = None
    | Some t =>
        ∃ st', delete_scan (Z.of_nat (length key)) (Z.of_nat i) rest st
               = Some st'
               ∧ sc_node st' = t
               ∧ scan_inv root (path_of key) (length key) st'
    end.
Proof.
  induction rest as [|ch rest IH]; intros i st Hdrop Hi Hinv.
  - simpl. exists st. split; [done|]. split; [done|].
    assert (i = length key) as <-; [|done].
    apply (f_equal length) in Hdrop. rewrite length_drop in Hdrop.
    simpl in Hdrop. lia.
  - assert (key !! i = Some ch) as Hch.
    { pose proof (lookup_drop key i 0) as H. rewrite Hdrop in H.
      by rewrite Nat.add_0_r in H. }
    assert (drop (S i) key = rest) as Hdrop'.
    { rewrite (drop_S _ _ _ Hch) in Hdrop. by injection Hdrop. }
    pose proof (lookup_lt_Some _ _ _ Hch) as Hlt.
    set (xs := path_of key) in *. set (x := key_to_index ch).
    assert (xs !! i = Some x) as Hx.
    { unfold xs, path_of. by rewrite list_lookup_fmap, Hch. }
    assert (length xs = length key) as Hlen by apply length_fmap.
    destruct Hinv as (Hnode & Hptr & Hnodes & K & HK & HKi & HKn & Hhi & Hlo
                      & Hchg & Hstart).
    cbn [delete_scan]. change (path_of (ch :: rest)) with (x :: path_of rest).
    cbn [deref]. fold x.
    destruct (get_child (sc_node st) x) as [nxt|] eqn:Hnxt; [|done].
    assert (deref root (take (S i) xs) = Some nxt) as Hnode'.
    { rewrite (take_S_r _ _ _ Hx), deref_app, Hnode. simpl. by rewrite Hnxt. }
    assert (sc_ptr st ++ [x] = take (S i) xs) as Hptr'.
    { by rewrite (take_S_r _ _ _ Hx), Hptr. }
    assert (nodes_to_be_deleted st ++ [take (S i) xs]
            = take (S i) (prefixes xs)) as Hnodes'.
    { rewrite (take_S_r _ i (take (S i) xs)), Hnodes; [done|].
      apply prefixes_lookup. lia. }
    assert ((if index_being_freed_changed st then Some x
             else starting_index_being_freed st) = xs !! K) as Hstart'.
    { rewrite Hchg. case_bool_decide as HKeq.
      - by rewrite HKeq, Hx.
      - apply Hstart. lia. }
    rewrite Hptr', Hnodes', Hstart'.
    replace (Z.of_nat i + 1)%Z with (Z.of_nat (S i)) by lia.
    destruct ((n_has_value nxt || node_has_multiple_children nxt)
              && negb (Z.of_nat i =? Z.of_nat (length key) - 1)%Z) eqn:Hcond.
    + apply andb_true_iff in Hcond as [Hlb Hni].
      apply negb_true_iff, Z.eqb_neq in Hni.
      match goal with
      | |- context [delete_scan _ _ _ ?st'] => apply (IH (S i) st')
      end; [done | lia|].
      split; [done|]. split; [done|]. split; [done|].
      exists (S i). repeat split.
      * simpl index_of_last_node_with_value. lia.
      * lia.
      * lia.
      * intros _ m Hm. rewrite Hnode' in Hm. by injection Hm as <-.
      * intros j m Hj. lia.
      * simpl. by rewrite bool_decide_true.
      * lia.
    + match goal with
      | |- context [delete_scan _ _ _ ?st'] => apply (IH (S i) st')
      end; [done | lia|].
      split; [done|]. split; [done|]. split; [done|].
      exists K. repeat split; try done.
      * lia.
      * intros j m Hj Hjn Hm.
        destruct (decide (j = S i)) as [->|Hne]; [|apply (Hlo j); [lia|done..]].
        rewrite Hnode' in Hm. injection Hm as <-.
        apply andb_false_iff in Hcond as [Hlb|Hni]; [done|].
        apply negb_false_iff, Z.eqb_eq in Hni. lia.
      * simpl. rewrite bool_decide_false by lia. done.
Qed.

Lemma scan_inv_init root xs :
  xs ≠ [] → scan_inv root xs 0 (mk_scan root [] [] (-1)%Z None TRUE).
Proof.
  intros Hne. split; [done|]. split; [done|]. split; [done|].
  exists 0. repeat split; try done; try lia.
  destruct xs; simpl; [done | lia].
Qed.

(** The first loop, run on a whole key. *)
Lemma delete_scan_key root key :
  key ≠ [] →
  match deref root (path_of key) with
  | None =>
      delete_scan (Z.of_nat (length key)) 0 key
        (mk_scan root [] [] (-1)%Z None TRUE) = None
  | Some t =>
      ∃ st', delete_scan (Z.of_nat (length key)) 0 key
               (mk_scan root [] [] (-1)%Z None TRUE) = Some st'
             ∧ sc_node st' = t
             ∧ scan_inv root (path_of key) (length key) st'
  end.
Proof.
  intros Hne.
  apply (delete_scan_spec root key key 0 (mk_scan root [] [] (-1)%Z None TRUE));
    [done | lia|].
  apply scan_inv_init. by destruct key.
Qed.

(** *** The ways [delete_from_trie] ends on a valid key *)

Lemma delete_from_trie_rejected heap trie key :
  key_permitted key = false →
  delete_from_trie heap trie key = Some (mk_del FALSE trie []).
Proof. intros H. unfold delete_from_trie. by rewrite H. Qed.

(** Without a block for [nodes_to_be_deleted] nothing is done. *)
Lemma delete_from_trie_no_block trie key :
  delete_from_trie 0 trie key = Some (mk_del FALSE trie []).
Proof. unfold delete_from_trie. by destruct (key_permitted key). Qed.

Section delete_cases.
Context (heap : nat) (trie : trie_t) (key : string).
Context (Hvalid : valid_key key).
Let xs := path_of (list_ascii_of_string key).
Let root := t_child trie.

Lemma valid_key_chars_ne : list_ascii_of_string key ≠ [].
Proof. destruct Hvalid as [Hne _]. by destruct key. Qed.

Lemma delete_absent :
  val_at root xs = None →
  delete_from_trie heap trie key = Some (mk_del FALSE trie []).
Proof.
  intros Hv. unfold delete_from_trie.
  rewrite (valid_key_permitted _ Hvalid). simpl negb. cbv iota.
  destruct (malloc heap); [|done].
  pose proof (delete_scan_key root _ valid_key_chars_ne) as H.
  fold root. unfold val_at in Hv. fold xs in H.
  destruct (deref root xs) as [t|].
  - destruct H as (st & -> & <- & _).
    destruct (n_has_value (sc_node st)); [done|]. done.
  - by rewrite H.
Qed.

Lemma delete_inner t :
  0 < heap →
  deref root xs = Some t → n_has_value t = true →
  node_has_children t = true →
  delete_from_trie heap trie key =
    Some (mk_del TRUE (mk_trie (store_at xs clear_value root)) []).
Proof.
  intros Hheap Ht Hv Hc. unfold delete_from_trie.
  rewrite (valid_key_permitted _ Hvalid). simpl negb. cbv iota.
  destruct heap as [|heap']; [lia|]. cbn [malloc].
  pose proof (delete_scan_key root _ valid_key_chars_ne) as H.
  fold root. fold xs in H. rewrite Ht in H.
  destruct H as (st & -> & <- & Hinv).
  rewrite Hv, Hc. simpl.
  destruct Hinv as (_ & -> & _).
  rewrite take_ge; [done|]. unfold xs, path_of. by rewrite length_fmap.
Qed.

Lemma delete_leaf t :
  0 < heap →
  deref root xs = Some t → n_has_value t = true →
  node_has_children t = false →
  ∃ K s,
    xs !! K = Some s
    ∧ (K ≠ 0 → ∀ m, deref root (take K xs) = Some m → load_bearing m = true)
    ∧ (∀ j m, K < j < length xs → deref root (take j xs) = Some m →
              load_bearing m = false)
    ∧ delete_from_trie heap trie key =
        Some (mk_del TRUE
                (mk_trie (store_at (take K xs) (clear_slot s) root))
                (reverse (drop K (prefixes xs)))).
Proof.
  intros Hheap Ht Hv Hc. unfold delete_from_trie.
  rewrite (valid_key_permitted _ Hvalid). simpl negb. cbv iota.
  destruct heap as [|heap']; [lia|]. cbn [malloc].
  pose proof (delete_scan_key root _ valid_key_chars_ne) as H.
  fold root. fold xs in H. rewrite Ht in H.
  destruct H as (st & -> & <- & Hinv).
  rewrite Hv, Hc. simpl negb. cbv iota.
  assert (length xs = length (list_ascii_of_string key)) as Hlen
    by apply length_fmap.
  destruct Hinv as (_ & _ & Hnodes & K & HK & _ & HKn & Hhi & Hlo & _ & Hstart).
  rewrite <- Hlen in *. rewrite take_ge in Hnodes
    by (rewrite prefixes_length; lia).
  destruct (lookup_lt_is_Some_2 xs K HKn) as [s Hs].
  exists K, s. split; [done|]. split; [done|]. split.
  { intros j m Hj. apply Hlo; lia. }
  rewrite HK, Hnodes, free_loop_spec by (rewrite prefixes_length; lia).
  rewrite (take_ge (prefixes xs)) by (rewrite prefixes_length; lia).
  rewrite (Hstart HKn), Hs. simpl.
  destruct K as [|K].
  - simpl. done.
  - assert ((Z.of_nat (S K) - 1 <? 0)%Z = false) as -> by (apply Z.ltb_ge; lia).
    replace (Z.to_nat (Z.of_nat (S K) - 1)) with K by lia.
    rewrite prefixes_lookup by lia. done.
Qed.

(** A stored valid key is deleted with success, and the trie that results
    is related to the old one by [removed]. *)
Lemma delete_stored v :
  0 < heap → val_at root xs = Some v →
  ∃ root' freed,
    delete_from_trie heap trie key = Some (mk_del TRUE (mk_trie root') freed)
    ∧ removed true xs root root'.
Proof.
  unfold val_at. intros Hheap Hv.
  destruct (deref root xs) as [t|] eqn:Ht; [|done].
  destruct (n_has_value t) eqn:Hhv; [|done].
  destruct (node_has_children t) eqn:Hc.
  - eexists _, _. split; [by eapply delete_inner|].
    by eapply store_at_clear_value_removed.
  - destruct (delete_leaf t Hheap Ht Hhv Hc) as (K & s & Hs & Hhi & Hlo & ->).
    eexists _, _. split; [done|].
    eapply store_at_clear_slot_removed; try done.
    intros [?|HK]; [done|]. by apply Hhi.
Qed.

(** Whatever the budget, a call on a valid key returns: with the trie as
    it was and [FALSE], or with [TRUE] and the key [removed]. *)
Lemma delete_valid :
  delete_from_trie heap trie key = Some (mk_del FALSE trie [])
  ∨ ∃ root' freed,
      delete_from_trie heap trie key = Some (mk_del TRUE (mk_trie root') freed)
      ∧ removed true xs root root' ∧ 0 < heap.
Proof.
  destruct heap as [|heap'] eqn:Eh.
  { left. apply delete_from_trie_no_block. }
  destruct (val_at root xs) as [v|] eqn:Hv.
  - right. destruct (delete_stored v) as (root' & freed & E & Hrem);
      [lia | done|]. rewrite Eh in E. exists root', freed.
    split; [done|]. split; [done | lia].
  - left. rewrite <- Eh. by apply delete_absent.
Qed.
End delete_cases.

(** ** The operations on valid keys *)

Lemma valid_key_intro key :
  key ≠ EmptyString → key_permitted key = true → valid_key key.
Proof. intros ? H. split; [done|]. by apply key_permitted_loop_Forall. Qed.

Lemma key_cases key :
  key = EmptyString ∨ key_permitted key = false ∨ valid_key key.
Proof.
  destruct key as [|ch rest]; [by left|]. right.
  destruct (key_permitted (String ch rest)) eqn:E; [right | by left].
  by apply valid_key_intro.
Qed.

Lemma string_length_chars key :
  String.length key = length (list_ascii_of_string key).
Proof. induction key as [|ch key IH]; simpl; [done | by rewrite IH]. Qed.

Lemma add_to_trie_permitted heap key v trie :
  key_permitted key = true →
  add_to_trie heap key v trie =
    (fst (add_loop heap (list_ascii_of_string key) v (t_child trie)),
     mk_trie (snd (add_loop heap (list_ascii_of_string key) v (t_child trie)))).
Proof. intros H. unfold add_to_trie. by rewrite H. Qed.

Lemma add_to_trie_enough heap key v trie :
  key_permitted key = true → String.length key ≤ heap →
  fst (add_to_trie heap key v trie) = TRUE.
Proof.
  intros Hk Hh. rewrite add_to_trie_permitted by done. simpl.
  apply add_loop_enough. by rewrite <- string_length_chars.
Qed.

Lemma add_to_trie_wf heap key v trie :
  wf_trie trie → wf_trie (snd (add_to_trie heap key v trie)).
Proof.
  intros Hwf. unfold add_to_trie.
  destruct (key_permitted key) eqn:Hk; simpl; [|done].
  apply add_loop_wf; [done|]. by apply key_permitted_loop_Forall.
Qed.

Lemma add_to_trie_lookup heap key v trie key' :
  wf_trie trie → valid_key key → valid_key key' →
  lookup_in_trie (snd (add_to_trie heap key v trie)) key' =
    if fst (add_to_trie heap key v trie) && bool_decide (key' = key)
    then Some v else lookup_in_trie trie key'.
Proof.
  intros Hwf Hk Hk'.
  rewrite !lookup_in_trie_val_at by by apply valid_key_permitted.
  rewrite add_to_trie_permitted by by apply valid_key_permitted.
  cbn [fst snd t_child]. rewrite add_loop_val_at by (done || apply Hk).
  destruct (decide (key' = key)) as [->|Hne].
  - by rewrite !bool_decide_true.
  - rewrite !bool_decide_false; [done | done|].
    intros E. apply Hne. by apply valid_key_path_inj.
Qed.

Lemma add_to_trie_tidy heap key v trie :
  wf_trie trie → tidy_trie trie →
  fst (add_to_trie heap key v trie) = TRUE ∨ key_permitted key = false →
  tidy_trie (snd (add_to_trie heap key v trie)).
Proof.
  intros Hwf Ht Hok. unfold add_to_trie in *.
  destruct (key_permitted key) eqn:Hk; simpl in *; [|done].
  destruct Hok as [Hok|?]; [|done].
  apply add_loop_tidy; [done | by apply key_permitted_loop_Forall | done..].
Qed.

Lemma delete_from_trie_wf heap key trie r :
  valid_key key → wf_trie trie → delete_from_trie heap trie key = Some r →
  wf_trie (d_trie r).
Proof.
  intros Hk Hwf Hr.
  destruct (delete_valid heap trie key Hk)
    as [E|(root' & freed & E & Hrem & _)];
    rewrite E in Hr; injection Hr as <-; [done|].
  by eapply removed_wf.
Qed.

Lemma delete_from_trie_lookup heap key trie key' :
  valid_key key → valid_key key' →
  ∃ r, delete_from_trie heap trie key = Some r
       ∧ d_ret r = bool_decide (0 < heap)
                   && bool_decide (is_Some (lookup_in_trie trie key))
       ∧ lookup_in_trie (d_trie r) key' =
           if d_ret r && bool_decide (key' = key) then None
           else lookup_in_trie trie key'.
Proof.
  intros Hk Hk'.
  rewrite !(lookup_in_trie_val_at trie) by by apply valid_key_permitted.
  destruct heap as [|heap'].
  { eexists. split; [apply delete_from_trie_no_block|].
    split; [done|]. simpl.
    by rewrite lookup_in_trie_val_at by by apply valid_key_permitted. }
  destruct (val_at (t_child trie) (path_of (list_ascii_of_string key)))
    as [v|] eqn:Hv.
  - destruct (delete_stored (S heap') trie key Hk v)
      as (root' & freed & E & Hrem); [lia | done|].
    eexists. split; [done|]. split; [done|].
    rewrite lookup_in_trie_val_at by by apply valid_key_permitted.
    cbn [d_ret d_trie t_child andb]. rewrite (removed_val_at _ _ _ _ _ Hrem).
    destruct (decide (key' = key)) as [->|Hne].
    + by rewrite decide_True, bool_decide_true.
    + rewrite decide_False, bool_decide_false; [done | done|].
      intros E'. apply Hne. by apply valid_key_path_inj.
  - eexists. split; [by apply delete_absent|]. split; [done|].
    simpl. by rewrite lookup_in_trie_val_at by by apply valid_key_permitted.
Qed.

Lemma delete_from_trie_empty heap trie :
  delete_from_trie (S heap) trie "" =
    if negb (n_has_value (t_child trie)) then Some (mk_del FALSE trie [])
    else if node_has_children (t_child trie)
         then Some (mk_del TRUE (mk_trie (clear_value (t_child trie))) [])
         else None.
Proof.
  unfold delete_from_trie. simpl.
  destruct (n_has_value (t_child trie)); simpl; [|done].
  by destruct (node_has_children (t_child trie)).
Qed.

Lemma delete_from_trie_defined heap trie key :
  key ≠ EmptyString → is_Some (delete_from_trie heap trie key).
Proof.
  intros Hne. destruct (key_cases key) as [?|[Hk|Hk]]; [done| |].
  - rewrite delete_from_trie_rejected by done. by eexists.
  - destruct (delete_from_trie_lookup heap key trie key Hk Hk) as (r & -> & _).
    by eexists.
Qed.

Lemma delete_from_trie_tidy heap trie key r :
  tidy_trie trie → delete_from_trie heap trie key = Some r →
  tidy_trie (d_trie r).
Proof.
  intros Ht Hr. destruct (key_cases key) as [->|[Hk|Hk]].
  - destruct heap as [|heap'].
    { rewrite delete_from_trie_no_block in Hr. by injection Hr as <-. }
    rewrite delete_from_trie_empty in Hr.
    destruct (n_has_value (t_child trie)); simpl in Hr;
      [|by injection Hr as <-].
    destruct (node_has_children (t_child trie)); [|done].
    injection Hr as <-. unfold tidy_trie, clear_value in *. simpl.
    by destruct (t_child trie).
  - rewrite delete_from_trie_rejected in Hr by done. by injection Hr as <-.
  - destruct (delete_valid heap trie key Hk)
      as [E|(root' & freed & E & Hrem & _)];
      rewrite E in Hr; injection Hr as <-; [done|].
    by eapply removed_tidy.
Qed.

Lemma deref_prefix n q r :
  is_Some (deref n (q ++ r)) → is_Some (deref n q).
Proof.
  rewrite deref_app. destruct (deref n q); [by eexists | by intros [? ?]].
Qed.

Lemma lookup_in_trie_Some_deref trie key v :
  lookup_in_trie trie key = Some v →
  is_Some (deref (t_child trie) (path_of (list_ascii_of_string key))).
Proof.
  unfold lookup_in_trie. destruct (negb (key_permitted key)); [done|].
  rewrite lookup_loop_deref. destruct (deref _ _); [by eexists | done].
Qed.

Lemma create_trie_Some heap trie :
  create_trie heap = Some trie ↔ 2 ≤ heap ∧ trie = empty_trie.
Proof.
  unfold create_trie, empty_trie.
  destruct heap as [|[|heap]]; simpl; split; try done; try (intros [? _]; lia).
  - intros [= <-]. split; [lia | done].
  - by intros [_ ->].
Qed.

(** ** Insertion and lookup *)

Lemma add_loop_present heap key v node :
  is_Some (deref node (path_of key)) →
  fst (add_loop heap key v node) = TRUE.
Proof.
  revert node. induction key as [|ch rest IH]; intros node Hp; [done|].
  change (path_of (ch :: rest)) with (key_to_index ch :: path_of rest) in Hp.
  cbn [deref add_loop] in *.
  destruct (get_child node (key_to_index ch)) as [nxt|]; [|by destruct Hp].
  simpl. by apply IH.
Qed.

Lemma add_to_trie_stores heap trie key v :
  wf_trie trie → valid_key key → String.length key ≤ heap →
  fst (add_to_trie heap key v trie) = TRUE
  ∧ lookup_in_trie (snd (add_to_trie heap key v trie)) key = Some v.
Proof.
  intros Hwf Hk Hh.
  pose proof (valid_key_permitted _ Hk) as Hperm.
  pose proof (add_to_trie_enough heap key v trie Hperm Hh) as Hok.
  split; [done|]. rewrite add_to_trie_lookup by done.
  by rewrite Hok, bool_decide_true.
Qed.

(** C2.  On a well-shaped store, inserting a valid key succeeds when the
    allocator has a block for each character of the key, and a lookup of
    that key then returns the inserted value, whatever was stored under the
    key before; a second insert under the same key succeeds with any
    budget and replaces the value of the first. *)
Theorem add_then_lookup heap trie key v :
  wf_trie trie → valid_key key → String.length key ≤ heap →
  fst (add_to_trie heap key v trie) = TRUE
  ∧ lookup_in_trie (snd (add_to_trie heap key v trie)) key = Some v
  ∧ ∀ heap2 v2,
      fst (add_to_trie heap2 key v2 (snd (add_to_trie heap key v trie)))
      = TRUE
      ∧ lookup_in_trie
          (snd (add_to_trie heap2 key v2 (snd (add_to_trie heap key v trie))))
          key
        = Some v2.
Proof.
  intros Hwf Hk Hh.
  pose proof (valid_key_permitted _ Hk) as Hperm.
  destruct (add_to_trie_stores heap trie key v Hwf Hk Hh) as [Hok Hl].
  split; [done|]. split; [done|]. intros heap2 v2.
  assert (fst (add_to_trie heap2 key v2 (snd (add_to_trie heap key v trie)))
          = TRUE) as Hok2.
  { rewrite (add_to_trie_permitted heap2) by done. cbn [fst].
    apply add_loop_present. by eapply lookup_in_trie_Some_deref. }
  split; [done|].
  rewrite add_to_trie_lookup by (done || by apply add_to_trie_wf).
  by rewrite Hok2, bool_decide_true.
Qed.

Lemma add_then_lookup_witness :
  wf_trie empty_trie ∧ valid_key "ab"
  ∧ lookup_in_trie (snd (add_to_trie 2 "ab" 7 empty_trie)) "ab" = Some 7%Z.
Proof.
  assert (wf_trie empty_trie) as Hwf by reflexivity.
  assert (valid_key "ab") as Hk by (by apply valid_key_intro).
  assert (String.length "ab" ≤ 2) as Hh by (simpl; lia).
  split; [done|]. split; [done|].
  apply (add_then_lookup 2 empty_trie "ab" 7 Hwf Hk Hh).
Defined.

(** C9.  Inserting under a valid key removes nothing, whether the call
    succeeds or runs out of memory: every node that could be reached
    before the call can be reached after it, and the lookup of any other
    valid key gives what it gave before. *)
Theorem add_preserves_others heap trie key v :
  wf_trie trie → valid_key key →
  (∀ p, is_Some (deref (t_child trie) p) →
        is_Some (deref (t_child (snd (add_to_trie heap key v trie))) p))
  ∧ (∀ key', valid_key key' → key' ≠ key →
        lookup_in_trie (snd (add_to_trie heap key v trie)) key'
        = lookup_in_trie trie key').
Proof.
  intros Hwf Hk. split.
  - intros p Hp.
    rewrite add_to_trie_permitted by by apply valid_key_permitted.
    simpl. apply add_loop_deref_mono; [done | apply Hk | done].
  - intros key' Hk' Hne. rewrite add_to_trie_lookup by done.
    rewrite bool_decide_false by done. by rewrite andb_false_r.
Qed.

Lemma add_preserves_others_witness :
  wf_trie empty_trie ∧ valid_key "ab"
  ∧ lookup_in_trie (snd (add_to_trie 2 "ab" 7 empty_trie)) "a"
    = lookup_in_trie empty_trie "a".
Proof.
  assert (wf_trie empty_trie) as Hwf by reflexivity.
  assert (valid_key "ab") as Hk by (by apply valid_key_intro).
  assert (valid_key "a") as Hk' by (by apply valid_key_intro).
  split; [done|]. split; [done|].
  by apply (add_preserves_others 2 empty_trie "ab" 7 Hwf Hk).
Defined.

(** ** Deletion *)

(** C1.  Deleting a stored valid key returns, with success when the
    allocator grants the block for the bookkeeping array, and leaves every
    other valid key as it was: its lookup gives the same answer, found or
    not, with the same value.  Hence every node on the path of another
    stored key survives, be it shared with the deleted key (siblings below
    a common node) or below its last node (the deleted key was a
    prefix). *)
Theorem delete_preserves_others heap trie key v :
  valid_key key → lookup_in_trie trie key = Some v →
  ∃ r, delete_from_trie heap trie key = Some r
       ∧ (0 < heap → d_ret r = TRUE)
       ∧ ∀ key', valid_key key' → key' ≠ key →
           lookup_in_trie (d_trie r) key' = lookup_in_trie trie key'
           ∧ (is_Some (lookup_in_trie trie key') →
              ∀ p, p `prefix_of` path_of (list_ascii_of_string key') →
                   is_Some (deref (t_child (d_trie r)) p)).
Proof.
  intros Hk Hv.
  destruct (delete_from_trie_lookup heap key trie key Hk Hk)
    as (r & E & Hret & _).
  exists r. split; [done|]. split.
  { intros Hh. rewrite Hret, Hv, bool_decide_true by done. done. }
  intros key' Hk' Hne.
  destruct (delete_from_trie_lookup heap key trie key' Hk Hk')
    as (r' & E' & _ & Hl).
  rewrite E in E'. injection E' as <-.
  rewrite bool_decide_false, andb_false_r in Hl by done.
  split; [done|]. intros [w Hw] p [q Hq].
  rewrite <- Hl in Hw. apply lookup_in_trie_Some_deref in Hw.
  rewrite Hq in Hw. by eapply deref_prefix.
Qed.

Lemma delete_preserves_others_witness :
  let trie :=
    snd (add_to_trie 1 "ac" 3
           (snd (add_to_trie 1 "ab" 2
                   (snd (add_to_trie 2 "aa" 1 empty_trie)))))
  in
  ∃ r, delete_from_trie 1 trie "ab" = Some r ∧ d_ret r = TRUE
       ∧ lookup_in_trie (d_trie r) "aa" = Some 1%Z
       ∧ lookup_in_trie (d_trie r) "ac" = Some 3%Z
       ∧ is_Some (deref (t_child (d_trie r)) [0]).
Proof.
  intros trie.
  assert (valid_key "ab") as Hk by (by apply valid_key_intro).
  assert (lookup_in_trie trie "ab" = Some 2%Z) as Hv by reflexivity.
  destruct (delete_preserves_others 1 trie "ab" 2 Hk Hv) as (r & E & Hret & H).
  exists r. split; [done|]. split; [apply Hret; lia|].
  assert (valid_key "aa") as Haa by (by apply valid_key_intro).
  assert (valid_key "ac") as Hac by (by apply valid_key_intro).
  destruct (H "aa" Haa) as [H1 H2]; [done|].
  destruct (H "ac" Hac) as [H3 _]; [done|].
  split; [by rewrite H1|]. split; [by rewrite H3|].
  apply H2; [by eexists | by exists [0]].
Defined.

(** C3.  Deleting a stored valid key, with a block for the bookkeeping
    array, succeeds, and the key is not found afterwards; inserting it
    again, with a block for each character, then succeeds and the lookup
    returns the new value. *)
Theorem delete_then_lookup heap trie key v :
  wf_trie trie → valid_key key → 0 < heap →
  lookup_in_trie trie key = Some v →
  ∃ r, delete_from_trie heap trie key = Some r ∧ d_ret r = TRUE
       ∧ lookup_in_trie (d_trie r) key = None
       ∧ ∀ heap' v',
           String.length key ≤ heap' →
           fst (add_to_trie heap' key v' (d_trie r)) = TRUE
           ∧ lookup_in_trie (snd (add_to_trie heap' key v' (d_trie r))) key
             = Some v'.
Proof.
  intros Hwf Hk Hh Hv.
  destruct (delete_from_trie_lookup heap key trie key Hk Hk)
    as (r & E & Hret & Hl).
  rewrite Hv, bool_decide_true in Hret by done.
  rewrite bool_decide_true in Hret by by eexists. simpl in Hret.
  rewrite Hret, bool_decide_true in Hl by done. simpl in Hl.
  exists r. split; [done|]. split; [done|]. split; [done|].
  intros heap' v' Hh'.
  apply add_to_trie_stores; [by eapply delete_from_trie_wf | done..].
Qed.

Lemma delete_then_lookup_witness :
  let trie := snd (add_to_trie 2 "aa" 1 empty_trie) in
  ∃ r, delete_from_trie 1 trie "aa" = Some r ∧ d_ret r = TRUE
       ∧ lookup_in_trie (d_trie r) "aa" = None
       ∧ lookup_in_trie (snd (add_to_trie 2 "aa" 99 (d_trie r))) "aa"
         = Some 99%Z.
Proof.
  intros trie.
  assert (wf_trie trie) as Hwf by reflexivity.
  assert (valid_key "aa") as Hk by (by apply valid_key_intro).
  assert (0 < 1) as Hh by lia.
  assert (lookup_in_trie trie "aa" = Some 1%Z) as Hv by reflexivity.
  destruct (delete_then_lookup 1 trie "aa" 1 Hwf Hk Hh Hv)
    as (r & E & Hret & Hl & H).
  exists r. split; [done|]. split; [done|]. split; [done|].
  apply H. simpl. lia.
Defined.

(** C5.  Deleting a valid key that is not stored fails and leaves the
    store as it is, whether the path of the key breaks off at an empty
    slot or ends at a node without a value.  Hence, once a key has been
    deleted, deleting it again fails and changes nothing. *)
Theorem delete_absent_unchanged heap trie key :
  valid_key key →
  (lookup_in_trie trie key = None →
   delete_from_trie heap trie key = Some (mk_del FALSE trie []))
  ∧ (lookup_loop (list_ascii_of_string key) (t_child trie) = None →
     delete_from_trie heap trie key = Some (mk_del FALSE trie []))
  ∧ (∀ node,
       lookup_loop (list_ascii_of_string key) (t_child trie) = Some node →
       n_has_value node = false →
       delete_from_trie heap trie key = Some (mk_del FALSE trie []))
  ∧ ∀ heap1, 0 < heap1 →
      ∃ r, delete_from_trie heap1 trie key = Some r
           ∧ delete_from_trie heap (d_trie r) key
             = Some (mk_del FALSE (d_trie r) []).
Proof.
  intros Hk.
  pose proof (valid_key_permitted _ Hk) as Hperm.
  assert (∀ t, lookup_in_trie t key = None →
               delete_from_trie heap t key = Some (mk_del FALSE t [])) as Habs.
  { intros t Hv. rewrite lookup_in_trie_val_at in Hv by done.
    by apply delete_absent. }
  split; [by apply Habs|]. split; [|split].
  - intros Hl. apply Habs. unfold lookup_in_trie. by rewrite Hperm, Hl.
  - intros node Hl Hn. apply Habs. unfold lookup_in_trie.
    by rewrite Hperm, Hl, Hn.
  - intros heap1 Hh.
    destruct (delete_from_trie_lookup heap1 key trie key Hk Hk)
      as (r & E & Hret & Hl).
    exists r. split; [done|]. apply Habs.
    rewrite bool_decide_true in Hl by done.
    rewrite bool_decide_true in Hret by done. simpl in Hret.
    destruct (d_ret r); simpl in Hl; [done|]. rewrite Hl.
    symmetry in Hret. apply bool_decide_eq_false in Hret.
    destruct (lookup_in_trie trie key); [|done].
    exfalso. apply Hret. by eexists.
Qed.

Lemma delete_absent_unchanged_witness :
  let trie := snd (add_to_trie 2 "ab" 1 empty_trie) in
  delete_from_trie 1 trie "a" = Some (mk_del FALSE trie [])
  ∧ delete_from_trie 1 trie "b" = Some (mk_del FALSE trie [])
  ∧ ∃ r, delete_from_trie 1 trie "ab" = Some r
         ∧ delete_from_trie 1 (d_trie r) "ab"
           = Some (mk_del FALSE (d_trie r) []).
Proof.
  intros trie.
  assert (valid_key "a") as Ha by (by apply valid_key_intro).
  assert (valid_key "b") as Hb by (by apply valid_key_intro).
  assert (valid_key "ab") as Hab by (by apply valid_key_intro).
  split; [|split].
  - destruct (delete_absent_unchanged 1 trie "a" Ha) as (H & _).
    apply H. reflexivity.
  - destruct (delete_absent_unchanged 1 trie "b" Hb) as (_ & H & _).
    apply H. reflexivity.
  - destruct (delete_absent_unchanged 1 trie "ab" Hab) as (_ & _ & _ & H).
    apply H. lia.
Defined.

(** ** The nodes a deletion releases *)

Lemma store_at_deref_app p f n m r :
  deref n p = Some m →
  deref (store_at p f n) (p ++ r) = deref (f m) r.
Proof.
  revert n. induction p as [|i p IH]; intros n Hm; simpl in *.
  - by injection Hm as ->.
  - destruct (get_child n i) as [c|] eqn:Hc; [|done].
    rewrite get_child_set_child_eq by (by eapply get_child_lt).
    by apply IH.
Qed.

(** A store through a pointer leaves the nodes above the pointee where
    they are. *)
Lemma store_at_deref_prefix P f n p :
  is_Some (deref n P) → p `prefix_of` P →
  is_Some (deref (store_at P f n) p).
Proof.
  intros [m Hm] [d ->]. revert n Hm.
  induction p as [|i p IH]; intros n Hm; simpl in *.
  - by eexists.
  - destruct (get_child n i) as [c|] eqn:Hc; [|done].
    rewrite get_child_set_child_eq by (by eapply get_child_lt).
    by apply IH.
Qed.

Lemma elem_of_freed K xs p :
  p ∈ reverse (drop K (prefixes xs)) ↔
  ∃ j, K ≤ j < length xs ∧ p = take (S j) xs.
Proof.
  rewrite elem_of_reverse, list_elem_of_lookup. split.
  - intros [i Hi]. rewrite lookup_drop in Hi.
    pose proof (lookup_lt_Some _ _ _ Hi) as Hlt.
    rewrite prefixes_length in Hlt.
    rewrite prefixes_lookup in Hi by done. injection Hi as <-.
    exists (K + i). split; [lia | done].
  - intros (j & Hj & ->). exists (j - K). rewrite lookup_drop.
    replace (K + (j - K)) with j by lia. apply prefixes_lookup. lia.
Qed.

Lemma prefix_take (p xs : list nat) :
  p `prefix_of` xs → p = take (length p) xs.
Proof. intros [r ->]. by rewrite take_app_length. Qed.

Lemma take_prefix_take (xs : list nat) i K :
  i ≤ K → take i xs `prefix_of` take K xs.
Proof.
  intros Hi. exists (drop i (take K xs)).
  rewrite <- (take_drop i (take K xs)) at 1.
  f_equal. rewrite take_take. f_equal. lia.
Qed.

Lemma prefixes_NoDup xs : NoDup (prefixes xs).
Proof.
  apply NoDup_alt. intros i j p Hi Hj.
  pose proof (lookup_lt_Some _ _ _ Hi) as Hli.
  pose proof (lookup_lt_Some _ _ _ Hj) as Hlj.
  rewrite prefixes_length in Hli, Hlj.
  rewrite prefixes_lookup in Hi, Hj by done.
  injection Hi as <-. injection Hj as Hj.
  apply (f_equal length) in Hj. rewrite !length_take in Hj. lia.
Qed.

(** What a call on a valid key hands to [free]: nothing, or the pointers
    to the nodes from some depth [K] of the path on, the deepest first. *)
Lemma delete_freed_cases heap trie key r :
  valid_key key → delete_from_trie heap trie key = Some r →
  let xs := path_of (list_ascii_of_string key) in
  (d_freed r = []
   ∧ ∀ p, is_Some (deref (t_child trie) p) →
          is_Some (deref (t_child (d_trie r)) p))
  ∨ ∃ K s m,
      xs !! K = Some s ∧ deref (t_child trie) (take K xs) = Some m
      ∧ is_Some (deref (t_child trie) xs)
      ∧ d_freed r = reverse (drop K (prefixes xs))
      ∧ t_child (d_trie r) = store_at (take K xs) (clear_slot s) (t_child trie)
      ∧ removed true xs (t_child trie) (t_child (d_trie r)).
Proof.
  intros Hk Hr xs.
  destruct heap as [|heap'].
  { rewrite delete_from_trie_no_block in Hr. injection Hr as <-. by left. }
  destruct (deref (t_child trie) xs) as [t|] eqn:Ht.
  2:{ rewrite (delete_absent (S heap') trie key Hk) in Hr
        by (unfold val_at; fold xs; by rewrite Ht).
      injection Hr as <-. by left. }
  destruct (n_has_value t) eqn:Hv.
  2:{ rewrite (delete_absent (S heap') trie key Hk) in Hr
        by (unfold val_at; fold xs; by rewrite Ht, Hv).
      injection Hr as <-. by left. }
  destruct (node_has_children t) eqn:Hc.
  - rewrite (delete_inner (S heap') trie key Hk t) in Hr by (done || lia).
    injection Hr as <-. left. split; [done|]. simpl. intros p Hp.
    pose proof (store_at_clear_value_removed true _ _ _ Ht Hv Hc) as Hrem.
    destruct (removed_deref _ _ _ _ p Hrem Hp) as [?|[_ Hpre]]; [done|].
    apply store_at_deref_prefix; [by exists t | done].
  - destruct (delete_leaf (S heap') trie key Hk t)
      as (K & s & Hs & Hhi & Hlo & E); [lia | done..|].
    rewrite E in Hr. injection Hr as <-. right. fold xs in Hs, Hhi, Hlo.
    assert (is_Some (deref (t_child trie) (take K xs))) as [m Hm].
    { apply (deref_prefix _ _ (drop K xs)). rewrite take_drop, Ht.
      by eexists. }
    exists K, s, m. simpl. repeat split; try done.
    eapply store_at_clear_slot_removed; try done.
    intros [?|HK0]; [done|]. by apply Hhi.
Qed.

(** The pointers handed to [free] are exactly the nodes that could be
    reached before the call and cannot be reached after it: nothing that
    stays reachable is released and nothing that is cut off is kept. *)
Lemma delete_frees_detached heap trie key r p :
  valid_key key → delete_from_trie heap trie key = Some r →
  p ∈ d_freed r ↔
  is_Some (deref (t_child trie) p) ∧ deref (t_child (d_trie r)) p = None.
Proof.
  intros Hk Hr.
  destruct (delete_freed_cases heap trie key r Hk Hr)
    as [[-> Hkeep]|(K & s & m & Hs & Hm & [t Ht] & -> & -> & Hrem)].
  { split; [by intros ?%elem_of_nil|]. intros [Hp Hn].
    destruct (Hkeep p Hp) as [? ?]. congruence. }
  set (xs := path_of (list_ascii_of_string key)) in *.
  pose proof (lookup_lt_Some _ _ _ Hs) as HK.
  rewrite elem_of_freed. split.
  - intros (j & Hj & ->). split.
    + apply (deref_prefix _ _ (drop (S j) xs)). rewrite take_drop, Ht.
      by eexists.
    + replace (take (S j) xs)
        with (take K xs ++ s :: take (j - K) (drop (S K) xs)).
      { rewrite (store_at_deref_app _ _ _ m) by done. simpl.
        by rewrite get_child_clear_slot_eq. }
      rewrite <- (take_drop K xs) at 3. rewrite take_app_ge
        by (rewrite length_take; lia).
      rewrite length_take, (drop_S _ _ _ Hs). f_equal.
      replace (S j - K `min` length xs) with (S (j - K)) by lia. done.
  - intros [Hp Hn].
    destruct (removed_deref _ _ _ _ p Hrem Hp) as [[m' Hm']|[Hne Hpre]];
      [congruence|].
    pose proof (prefix_length _ _ Hpre) as Hlen.
    apply prefix_take in Hpre.
    destruct (decide (K < length p)) as [Hgt|Hle].
    + exists (length p - 1). split; [lia|].
      by replace (S (length p - 1)) with (length p) by lia.
    + exfalso.
      destruct (store_at_deref_prefix (take K xs) (clear_slot s)
                  (t_child trie) p) as [? ?]; [by rewrite Hm| |congruence].
      rewrite Hpre. apply take_prefix_take. lia.
Qed.

(** No node is released twice. *)
Lemma delete_freed_NoDup heap trie key r :
  valid_key key → delete_from_trie heap trie key = Some r →
  NoDup (d_freed r).
Proof.
  intros Hk Hr.
  destruct (delete_freed_cases heap trie key r Hk Hr)
    as [[-> _]|(K & s & m & _ & _ & _ & -> & _)]; [constructor|].
  rewrite reverse_Permutation.
  apply (sublist_NoDup _ (prefixes (path_of (list_ascii_of_string key))));
    [apply prefixes_NoDup | apply sublist_drop].
Qed.

(** ** Induction on the tree *)

Lemma node_t_child_ind (P : node_t → Prop) :
  (∀ n, (∀ i c, get_child n i = Some c → P c) → P n) → ∀ n, P n.
Proof.
  intros H. fix IH 1. intros [slots k v hv]. apply H.
  assert (∀ i c, slots !! i = Some (Some c) → P c) as Hslots.
  { generalize slots. fix IHl 1. intros [|o l] i c Hc.
    - destruct i; discriminate.
    - destruct i as [|i]; simpl in Hc.
      + destruct o as [c0|]; [|discriminate].
        pose proof (IH c0) as Hc0. by injection Hc as <-.
      + by apply (IHl l i). }
  intros i c Hc. apply (Hslots i).
  by apply (get_child_lookup (mk_node slots k v hv)).
Qed.

(** The invariant read along paths: every node other than the root
    carries a value or has a child. *)
Lemma tidy_node_paths n :
  tidy_node n = true ↔
  ∀ p m, p ≠ [] → deref n p = Some m →
         n_has_value m = true ∨ node_has_children m = true.
Proof.
  split.
  - intros Ht p. revert n Ht. induction p as [|i p IH]; intros n Ht m Hp Hm.
    { done. }
    simpl in Hm. destruct (get_child n i) as [c|] eqn:Hc; [|done].
    rewrite tidy_node_unfold in Ht. destruct (Ht _ _ Hc) as [Hl Htc].
    destruct p as [|j p].
    + simpl in Hm. injection Hm as <-. by apply orb_true_iff.
    + by apply (IH c Htc).
  - induction n as [n IH] using node_t_child_ind. intros H.
    apply tidy_node_unfold. intros i c Hc. split.
    + apply orb_true_iff. apply (H [i]); [done|]. simpl. by rewrite Hc.
    + apply (IH i c Hc). intros p m Hp Hm.
      apply (H (i :: p)); [done|]. simpl. by rewrite Hc.
Qed.

Lemma no_dead_leaf_tidy trie : no_dead_leaf trie ↔ tidy_trie trie.
Proof. symmetry. apply tidy_node_paths. Qed.

(** ** The invariant of the store *)

(** An insert that runs out of memory half way returns [FALSE] and leaves
    the nodes it has linked: here the node of ['a'], a leaf without a
    value. *)
Lemma failed_add_leaves_dead_leaf :
  wf_trie empty_trie ∧ no_dead_leaf empty_trie
  ∧ fst (add_to_trie 1 "ab" 5 empty_trie) = FALSE
  ∧ deref (t_child (snd (add_to_trie 1 "ab" 5 empty_trie))) [0]
    = Some (set_key zero_node "a")
  ∧ ¬ no_dead_leaf (snd (add_to_trie 1 "ab" 5 empty_trie)).
Proof.
  split; [reflexivity|]. split; [by apply no_dead_leaf_tidy|].
  split; [reflexivity|]. split; [reflexivity|].
  intros H. apply no_dead_leaf_tidy in H. discriminate H.
Qed.

(** C6 (amended).  If no node other than the root is a leaf without a
    value, the same holds after every [add_to_trie] that succeeds or that
    rejects its key, and after every [delete_from_trie], whatever the key
    and whether the call succeeds or fails.  An insert succeeds when the
    allocator has a block for each character, and [delete_from_trie]
    returns for every non-empty key.  [lookup_in_trie] has no effect on the
    store at all: it is a function of the trie that yields no trie. *)
Theorem no_dead_leaf_preserved trie :
  wf_trie trie → no_dead_leaf trie →
  (∀ heap key v,
     fst (add_to_trie heap key v trie) = TRUE ∨ key_permitted key = false →
     no_dead_leaf (snd (add_to_trie heap key v trie)))
  ∧ (∀ heap key v,
       key_permitted key = true → String.length key ≤ heap →
       fst (add_to_trie heap key v trie) = TRUE)
  ∧ (∀ heap key, key ≠ EmptyString →
                 is_Some (delete_from_trie heap trie key))
  ∧ (∀ heap key r, delete_from_trie heap trie key = Some r →
                   no_dead_leaf (d_trie r)).
Proof.
  intros Hwf Ht. apply no_dead_leaf_tidy in Ht. split; [|split; [|split]].
  - intros heap key v Hok. apply no_dead_leaf_tidy.
    by apply add_to_trie_tidy.
  - intros heap key v. apply add_to_trie_enough.
  - intros heap key. apply delete_from_trie_defined.
  - intros heap key r Hr. apply no_dead_leaf_tidy.
    by eapply delete_from_trie_tidy.
Qed.

Lemma no_dead_leaf_preserved_witness :
  let trie := snd (add_to_trie 2 "ab" 1 empty_trie) in
  wf_trie trie ∧ no_dead_leaf trie
  ∧ no_dead_leaf (snd (add_to_trie 1 "abc" 2 trie))
  ∧ no_dead_leaf (snd (add_to_trie 0 "aB" 2 trie))
  ∧ ∃ r, delete_from_trie 1 trie "ab" = Some r ∧ no_dead_leaf (d_trie r).
Proof.
  intros trie.
  assert (wf_trie trie) as Hwf by reflexivity.
  assert (no_dead_leaf trie) as Ht by (by apply no_dead_leaf_tidy).
  destruct (no_dead_leaf_preserved trie Hwf Ht) as (Ha & _ & Hd & Hp).
  split; [done|]. split; [done|].
  split; [apply Ha; left; reflexivity|].
  split; [apply Ha; right; reflexivity|].
  destruct (Hd 1 "ab") as [r Hr]; [done|].
  exists r. split; [done|]. by apply (Hp 1 "ab").
Defined.

(** ** Chains that serve a single key *)






(** ** The store as a finite map *)

Lemma lookup_in_trie_empty_trie key : lookup_in_trie empty_trie key = None.
Proof.
  unfold lookup_in_trie. destruct (key_permitted key); simpl; [|done].
  rewrite lookup_loop_deref.
  pose proof (val_at_zero_node zero (path_of (list_ascii_of_string key))) as H.
  unfold val_at in H. change (set_key zero_node zero) with zero_node in H.
  destruct (deref zero_node _) as [n|]; [|done].
  by destruct (n_has_value n).
Qed.

Lemma represents_empty : represents empty_trie ∅.
Proof.
  split; [reflexivity|]. intros key Hk.
  by rewrite lookup_in_trie_empty_trie, lookup_empty.
Qed.

Lemma represents_add heap trie m key v :
  valid_key key → represents trie m →
  represents (snd (add_to_trie heap key v trie))
    (map_step m (Add heap key v, fst (add_to_trie heap key v trie))).
Proof.
  intros Hk (Hwf & Hl). split; [by apply add_to_trie_wf|].
  intros key' Hk'. rewrite add_to_trie_lookup by done.
  destruct (fst (add_to_trie heap key v trie)); simpl; [|by apply Hl].
  case_bool_decide as Heq.
  - subst key'. by rewrite lookup_insert_eq.
  - rewrite lookup_insert_ne by done. by apply Hl.
Qed.

Lemma represents_delete heap trie m key :
  valid_key key → represents trie m →
  ∃ r, delete_from_trie heap trie key = Some r
       ∧ d_ret r = bool_decide (0 < heap) && bool_decide (is_Some (m !! key))
       ∧ represents (d_trie r) (map_step m (Del heap key, d_ret r)).
Proof.
  intros Hk (Hwf & Hl).
  destruct (delete_from_trie_lookup heap key trie key Hk Hk)
    as (r & E & Hret & _).
  exists r. split; [done|]. split; [by rewrite Hret, Hl|].
  split; [by eapply delete_from_trie_wf|]. intros key' Hk'.
  destruct (delete_from_trie_lookup heap key trie key' Hk Hk')
    as (r' & E' & _ & H).
  rewrite E in E'. injection E' as <-. rewrite H.
  destruct (d_ret r); simpl; [|by apply Hl].
  case_bool_decide as Heq.
  - subst key'. by rewrite lookup_delete_eq.
  - rewrite lookup_delete_ne by done. by apply Hl.
Qed.

Lemma run_represents ops trie m :
  valid_ops ops → represents trie m →
  ∃ trace trie',
    run ops trie = Some (trace, trie') ∧ trace.*1 = ops
    ∧ represents trie' (map_run trace m)
    ∧ trace_sound m trace
    ∧ (tidy_trie trie → no_failed_add trace → tidy_trie trie').
Proof.
  intros Hops. revert trie m.
  induction Hops as [|o ops Ho _ IH]; intros trie m Hr.
  - by exists [], trie.
  - destruct o as [heap key v|heap key]; cbn [run op_key] in *.
    + destruct (IH _ _ (represents_add heap trie m key v Ho Hr))
        as (trace & trie' & -> & Htr & Hr' & Hs & Ht').
      eexists _, trie'. split; [done|]. split; [by rewrite fmap_cons, Htr|].
      split; [done|]. split.
      { split; [|done]. simpl. intros Hh.
        apply add_to_trie_enough; [by apply valid_key_permitted | done]. }
      intros Ht Hnf. inversion Hnf as [|c l Hc Hl]; subst.
      apply Ht'; [|done]. apply add_to_trie_tidy; [apply Hr | done|].
      left. by destruct (fst (add_to_trie heap key v trie)).
    + destruct (represents_delete heap trie m key Ho Hr)
        as (r & E & Hret & Hr1).
      rewrite E.
      destruct (IH _ _ Hr1) as (trace & trie' & -> & Htr & Hr' & Hs & Ht').
      eexists _, trie'. split; [done|]. split; [by rewrite fmap_cons, Htr|].
      split; [done|]. split; [by split|].
      intros Ht Hnf. inversion Hnf as [|c l Hc Hl]; subst.
      apply Ht'; [|done]. by eapply delete_from_trie_tidy.
Qed.

(** C10.  From the trie [create_trie] returns, under any sequence of
    inserts and deletes on valid keys, every call returns, with the flag
    the finite map predicts, and the lookup of a valid key gives what the
    finite map of the calls binds to it: the value of the latest successful
    insert of the key that no later successful delete has removed, and
    nothing otherwise.  On the fresh trie every lookup fails. *)
Theorem trie_refines_map heap trie0 ops :
  create_trie heap = Some trie0 → valid_ops ops →
  (∀ key, lookup_in_trie trie0 key = None)
  ∧ ∃ trace trie,
      run ops trie0 = Some (trace, trie) ∧ trace.*1 = ops
      ∧ trace_sound ∅ trace
      ∧ ∀ key, valid_key key →
               lookup_in_trie trie key = map_run trace ∅ !! key.
Proof.
  intros Hc Hops. apply create_trie_Some in Hc as [_ ->]. split.
  - apply lookup_in_trie_empty_trie.
  - destruct (run_represents ops empty_trie ∅ Hops represents_empty)
      as (trace & trie & Hrun & Htr & [_ Hl] & Hs & _).
    by exists trace, trie.
Qed.

Lemma trie_refines_map_witness :
  ∃ trie0 trace trie,
    create_trie 2 = Some trie0
    ∧ run [Add 2 "aa" 1; Add 1 "ab" 2; Add 0 "abc" 7; Del 1 "aa";
           Add 0 "ab" 3; Del 0 "ab"; Del 1 "zz"] trie0
      = Some (trace, trie)
    ∧ lookup_in_trie trie "ab" = Some 3%Z
    ∧ lookup_in_trie trie "aa" = None
    ∧ lookup_in_trie trie "abc" = None.
Proof.
  set (ops := [Add 2 "aa" 1; Add 1 "ab" 2; Add 0 "abc" 7; Del 1 "aa";
               Add 0 "ab" 3; Del 0 "ab"; Del 1 "zz"]).
  assert (valid_ops ops) as Hops.
  { repeat constructor; by apply valid_key_intro. }
  assert (create_trie 2 = Some empty_trie) as Hc by reflexivity.
  destruct (trie_refines_map 2 empty_trie ops Hc Hops)
    as (_ & trace & trie & Hrun & Htr & _ & Hl).
  exists empty_trie, trace, trie. split; [done|]. split; [done|].
  assert (trace = [(Add 2 "aa" 1%Z, true); (Add 1 "ab" 2%Z, true);
                   (Add 0 "abc" 7%Z, false); (Del 1 "aa", true);
                   (Add 0 "ab" 3%Z, true); (Del 0 "ab", false);
                   (Del 1 "zz", false)]) as ->.
  { vm_compute in Hrun. by injection Hrun as <- _. }
  split; [|split]; rewrite Hl by (by apply valid_key_intro); reflexivity.
Defined.

(** ** Teardown *)

Lemma index_to_key_spec i :
  i < NUM_CHILD →
  lower_case (index_to_key i) = true ∧ key_to_index (index_to_key i) = i.
Proof.
  unfold NUM_CHILD, index_to_key. intros Hi.
  assert (nat_of_ascii (ascii_of_nat (97 + i)) = 97 + i) as E
    by (apply nat_ascii_embedding; lia).
  assert (lower_case (ascii_of_nat (97 + i)) = true) as Hl.
  { unfold lower_case. rewrite E. apply andb_true_iff.
    split; apply Nat.leb_le; lia. }
  split; [done|].
  destruct (lower_case_index _ Hl) as [-> _]. rewrite E. lia.
Qed.

Lemma path_to_key p :
  Forall (λ i, i < NUM_CHILD) p →
  ∃ k, Forall (λ ch, lower_case ch = true) k ∧ path_of k = p.
Proof.
  induction 1 as [|i p Hi _ (k & Hk & Hp)].
  - by exists [].
  - destruct (index_to_key_spec i Hi) as [Hl Hidx].
    exists (index_to_key i :: k). split; [by constructor|].
    change (path_of (index_to_key i :: k))
      with (key_to_index (index_to_key i) :: path_of k).
    by rewrite Hidx, Hp.
Qed.

(** Below a node that is still needed some value is stored. *)
Lemma stored_below n :
  wf_node n = true → tidy_node n = true → live n = true →
  ∃ p v, val_at n p = Some v ∧ Forall (λ i, i < NUM_CHILD) p.
Proof.
  induction n as [n IH] using node_t_child_ind. intros Hwf Ht Hl.
  destruct (n_has_value n) eqn:Hv.
  - exists [], (n_value n). split; [by rewrite val_at_nil, Hv | constructor].
  - unfold live in Hl. rewrite Hv in Hl. simpl in Hl.
    apply has_children_inv in Hl as (i & c & Hc).
    rewrite tidy_node_unfold in Ht. destruct (Ht _ _ Hc) as [Hlc Htc].
    destruct (IH i c Hc (wf_node_child _ _ _ Hwf Hc) Htc Hlc)
      as (p & v & Hp & Hall).
    exists (i :: p), v. split; [by rewrite val_at_cons, Hc|].
    constructor; [|done].
    rewrite <- (wf_node_length _ Hwf). by eapply get_child_lt.
Qed.

Lemma has_children_stored trie :
  wf_trie trie → tidy_trie trie → node_has_children (t_child trie) = true →
  ∃ key v, valid_key key ∧ lookup_in_trie trie key = Some v.
Proof.
  intros Hwf Ht Hc. apply has_children_inv in Hc as (i & c & Hc).
  pose proof Ht as Ht'. unfold tidy_trie in Ht'.
  rewrite tidy_node_unfold in Ht'. destruct (Ht' _ _ Hc) as [Hlc Htc].
  destruct (stored_below c (wf_node_child _ _ _ Hwf Hc) Htc Hlc)
    as (p & v & Hp & Hall).
  assert (Forall (λ i, i < NUM_CHILD) (i :: p)) as Hall'.
  { constructor; [|done].
    rewrite <- (wf_node_length _ Hwf). by eapply get_child_lt. }
  destruct (path_to_key _ Hall') as (k & Hk & Hpath).
  exists (string_of_list_ascii k), v.
  assert (valid_key (string_of_list_ascii k)) as Hvalid.
  { split.
    - intros E. apply (f_equal list_ascii_of_string) in E.
      rewrite list_ascii_of_string_of_list_ascii in E. subst k. done.
    - by rewrite list_ascii_of_string_of_list_ascii. }
  split; [done|].
  rewrite lookup_in_trie_val_at by by apply valid_key_permitted.
  rewrite list_ascii_of_string_of_list_ascii, Hpath.
  by rewrite val_at_cons, Hc.
Qed.

Lemma destroy_loop_spec slots :
  destroy_loop slots = Destroyed ↔ has_children_loop slots = false.
Proof.
  induction slots as [|[c|] slots IH]; simpl; [done | | done].
  split; discriminate.
Qed.

(** C8.  [destroy_trie] passes its assertions exactly when no slot of the
    root is occupied.  This is the case once every key that was inserted
    has been deleted again, provided no insert failed: after a sequence of
    calls on valid keys in which no insert failed and whose successful
    inserts have all been undone by successful deletes, the root has no
    child and [destroy_trie] does not trip. *)
Theorem destroy_after_deletes heap trie0 ops trace trie :
  create_trie heap = Some trie0 → valid_ops ops →
  run ops trie0 = Some (trace, trie) →
  no_failed_add trace → map_run trace ∅ = ∅ →
  (∀ t, node_has_children (t_child t) = false ↔ destroy_trie t = Destroyed)
  ∧ node_has_children (t_child trie) = false
  ∧ destroy_trie trie = Destroyed.
Proof.
  intros Hc Hops Hrun Hnf Hempty.
  apply create_trie_Some in Hc as [_ ->].
  assert (∀ t, node_has_children (t_child t) = false ↔
               destroy_trie t = Destroyed) as Hd.
  { intros t. symmetry. apply destroy_loop_spec. }
  split; [done|].
  destruct (run_represents ops empty_trie ∅ Hops represents_empty)
    as (trace' & trie' & Hrun' & _ & [Hwf Hl] & _ & Ht).
  rewrite Hrun in Hrun'. injection Hrun' as <- <-.
  assert (node_has_children (t_child trie) = false) as Hnc.
  { apply not_true_is_false. intros Hch.
    destruct (has_children_stored trie Hwf (Ht eq_refl Hnf) Hch)
      as (key & v & Hk & Hv).
    rewrite (Hl key Hk), Hempty, lookup_empty in Hv. done. }
  split; [done | by apply Hd].
Qed.

Lemma destroy_after_deletes_witness :
  ∃ trace trie,
    run [Add 2 "aa" 1; Add 1 "ab" 2; Add 1 "ac" 3; Del 1 "ab";
         Add 2 "aaak" 10; Del 1 "aa"; Del 1 "ac"; Del 1 "ab"; Del 1 "aaak"]
      empty_trie = Some (trace, trie)
    ∧ destroy_trie trie = Destroyed.
Proof.
  set (ops := [Add 2 "aa" 1; Add 1 "ab" 2; Add 1 "ac" 3; Del 1 "ab";
               Add 2 "aaak" 10; Del 1 "aa"; Del 1 "ac"; Del 1 "ab";
               Del 1 "aaak"]).
  assert (valid_ops ops) as Hops.
  { repeat constructor; by apply valid_key_intro. }
  assert (create_trie 2 = Some empty_trie) as Hc by reflexivity.
  destruct (run ops empty_trie) as [[trace trie]|] eqn:Hrun;
    [|by vm_compute in Hrun].
  exists trace, trie. split; [done|].
  assert (trace = [(Add 2 "aa" 1%Z, true); (Add 1 "ab" 2%Z, true);
                   (Add 1 "ac" 3%Z, true); (Del 1 "ab", true);
                   (Add 2 "aaak" 10%Z, true); (Del 1 "aa", true);
                   (Del 1 "ac", true); (Del 1 "ab", false);
                   (Del 1 "aaak", true)]) as Htrace.
  { vm_compute in Hrun. by injection Hrun as <- _. }
  apply (destroy_after_deletes 2 empty_trie ops trace trie Hc Hops Hrun).
  - rewrite Htrace. by repeat constructor.
  - rewrite Htrace. reflexivity.
Defined.

(** Every key that was inserted can have been deleted again and
    [destroy_trie] trip all the same: the insert of ["cd"] below gets one
    node, links it under the root and fails; no key but ["ab"] was ever
    stored, the delete of ["ab"] succeeds, no lookup finds anything, and
    the root still has the node of ['c']. *)
Lemma destroy_trips_after_deletes :
  ∃ trace trie,
    run [Add 2 "ab" 1; Add 1 "cd" 2; Del 1 "ab"] empty_trie
      = Some (trace, trie)
    ∧ trace.*2 = [true; false; true]
    ∧ map_run trace ∅ = (∅ : gmap string Z)
    ∧ (∀ key, valid_key key → lookup_in_trie trie key = None)
    ∧ node_has_children (t_child trie) = true
    ∧ destroy_trie trie = AssertionFailed.
Proof.
  set (ops := [Add 2 "ab" 1; Add 1 "cd" 2; Del 1 "ab"]).
  assert (valid_ops ops) as Hops.
  { repeat constructor; by apply valid_key_intro. }
  destruct (run_represents ops empty_trie ∅ Hops represents_empty)
    as (trace & trie & Hrun & _ & [_ Hl] & _).
  exists trace, trie. split; [done|].
  assert (trace = [(Add 2 "ab" 1%Z, true); (Add 1 "cd" 2%Z, false);
                   (Del 1 "ab", true)]) as Htrace.
  { vm_compute in Hrun. by injection Hrun as <- _. }
  assert (map_run trace ∅ = (∅ : gmap string Z)) as Hmap.
  { rewrite Htrace. reflexivity. }
  split; [by rewrite Htrace|]. split; [done|]. split.
  { intros key Hk. by rewrite Hl, Hmap, lookup_empty. }
  vm_compute in Hrun. injection Hrun as _ <-. split; reflexivity.
Qed.

(** After an insert that ran out of memory the root keeps a child although
    no key is stored, and [destroy_trie] trips: the nodes such an insert
    leaves cannot be deleted through the interface. *)
Lemma destroy_after_failed_add :
  ∃ trie, run [Add 1 "ab" 5] empty_trie = Some ([(Add 1 "ab" 5%Z, false)], trie)
          ∧ map_run [(Add 1 "ab" 5%Z, false)] ∅ = (∅ : gmap string Z)
          ∧ destroy_trie trie = AssertionFailed.
Proof. eexists. split; [reflexivity|]. split; reflexivity. Qed.

(** ** Keys that are not valid *)

(** The empty key passes [key_permitted]: inserting under it succeeds and
    puts the value on the root node, where a lookup of the empty key
    finds it. *)
Lemma empty_key_accepted :
  fst (add_to_trie 0 "" 1 empty_trie) = TRUE
  ∧ snd (add_to_trie 0 "" 1 empty_trie) ≠ empty_trie
  ∧ lookup_in_trie (snd (add_to_trie 0 "" 1 empty_trie)) "" = Some 1%Z.
Proof. split; [done|]. split; [discriminate | done]. Qed.

(** Deleting the empty key from that trie reads
    [starting_index_being_freed] before it has been assigned. *)
Lemma delete_empty_key_undefined :
  delete_from_trie 1 (snd (add_to_trie 0 "" 1 empty_trie)) "" = None.
Proof. reflexivity. Qed.

(** C4 (amended).  A key with a character outside ['a'..'z'] is rejected
    by the three operations, which leave the store as it is.  The empty
    key is not rejected: [key_permitted] accepts it, [add_to_trie] succeeds
    on it and stores the value on the root node, where [lookup_in_trie]
    finds it. *)
Theorem bad_character_rejected heap trie key :
  Exists (λ ch, lower_case ch = false) (list_ascii_of_string key) →
  (∀ v, add_to_trie heap key v trie = (FALSE, trie))
  ∧ lookup_in_trie trie key = None
  ∧ delete_from_trie heap trie key = Some (mk_del FALSE trie [])
  ∧ key_permitted "" = TRUE
  ∧ ∀ v, add_to_trie heap "" v trie =
           (TRUE, mk_trie (set_has_value (set_value (t_child trie) v) TRUE))
         ∧ lookup_in_trie (snd (add_to_trie heap "" v trie)) "" = Some v.
Proof.
  intros Hbad.
  assert (key_permitted key = false) as Hk.
  { apply not_true_is_false. intros H.
    apply key_permitted_loop_Forall in H.
    apply Exists_exists in Hbad as (ch & Hin & Hch).
    rewrite Forall_forall in H. rewrite (H ch Hin) in Hch. done. }
  split; [|split; [|split; [|split]]].
  - intros v. unfold add_to_trie. by rewrite Hk.
  - unfold lookup_in_trie. by rewrite Hk.
  - by apply delete_from_trie_rejected.
  - done.
  - intros v. split; done.
Qed.

Lemma bad_character_rejected_witness :
  add_to_trie 2 "Ab" 1 empty_trie = (FALSE, empty_trie)
  ∧ lookup_in_trie empty_trie "a1" = None
  ∧ delete_from_trie 1 empty_trie "a-b" = Some (mk_del FALSE empty_trie []).
Proof.
  split; [|split].
  - apply (bad_character_rejected 2 empty_trie "Ab").
    apply Exists_cons_hd. reflexivity.
  - apply (bad_character_rejected 0 empty_trie "a1").
    apply Exists_cons_tl, Exists_cons_hd. reflexivity.
  - apply (bad_character_rejected 1 empty_trie "a-b").
    apply Exists_cons_tl, Exists_cons_hd. reflexivity.
Defined.

(** ** Keys and slot indices *)

Lemma key_to_index_range ch :
  key_to_index ch < NUM_CHILD ↔ lower_case ch = true.
Proof.
  split; [|apply lower_case_index].
  unfold key_to_index, lower_case, NUM_CHILD. intros H.
  pose proof (nat_ascii_bounded ch) as Hb.
  apply andb_true_iff. rewrite Nat.leb_le, Nat.leb_le.
  destruct (decide (97 ≤ nat_of_ascii ch)) as [Hge|Hlt].
  - rewrite Z.mod_small in H by lia. lia.
  - exfalso.
    replace ((Z.of_nat (nat_of_ascii ch) - 97) mod 256)%Z
      with (Z.of_nat (nat_of_ascii ch) + 159)%Z in H; [lia|].
    apply (Z.mod_unique_pos _ _ (-1)); lia.
Qed.

Lemma index_to_key_to_index ch :
  lower_case ch = true → index_to_key (key_to_index ch) = ch.
Proof.
  intros Hl. destruct (lower_case_index ch Hl) as [_ Hlt].
  destruct (index_to_key_spec _ Hlt) as [Hl' Hi].
  by apply key_to_index_inj.
Qed.

(** X1.  [key_to_index] answers an index inside the child array exactly
    for the characters ['a'] to ['z'], and [key_permitted] accepts exactly
    the strings whose characters all do: the walks of [add_to_trie],
    [lookup_in_trie] and [delete_from_trie], which follow
    [child[key_to_index(key[i])]] only once the key is accepted, stay
    inside the array. *)
Theorem key_permitted_in_bounds :
  (∀ ch, key_to_index ch < NUM_CHILD ↔ lower_case ch = true)
  ∧ ∀ key, key_permitted key = TRUE ↔
           Forall (λ i, i < NUM_CHILD) (path_of (list_ascii_of_string key)).
Proof.
  split; [apply key_to_index_range|].
  intros key. unfold key_permitted, path_of.
  rewrite key_permitted_loop_Forall, Forall_fmap.
  apply Forall_iff. intros ch. simpl. symmetry. apply key_to_index_range.
Qed.

(** X2.  Two different keys that [key_permitted] accepts walk different
    slot paths: on the letters ['a'] to ['z'] [key_to_index] is one to
    one, so no two keys share the node their value is stored in. *)
Theorem permitted_keys_distinct_paths k1 k2 :
  key_permitted k1 = TRUE → key_permitted k2 = TRUE → k1 ≠ k2 →
  path_of (list_ascii_of_string k1) ≠ path_of (list_ascii_of_string k2).
Proof.
  unfold key_permitted. rewrite !key_permitted_loop_Forall.
  intros H1 H2 Hne Hp. apply Hne, list_ascii_of_string_inj.
  by apply path_of_inj.
Qed.

Lemma permitted_keys_distinct_paths_witness :
  path_of (list_ascii_of_string "ab") = [0; 1]
  ∧ path_of (list_ascii_of_string "ab") ≠ path_of (list_ascii_of_string "b").
Proof.
  split; [reflexivity|].
  apply (permitted_keys_distinct_paths "ab" "b");
    [reflexivity | reflexivity | discriminate].
Defined.

(** ** The two tests on the children of a node *)

Lemma occupied_two_inv (slots : list (option node_t)) :
  2 ≤ occupied slots →
  ∃ i j c c', i ≠ j ∧ slots !! i = Some (Some c) ∧ slots !! j = Some (Some c').
Proof.
  induction slots as [|[c|] rest IH]; simpl; intros H; [lia| |].
  - destruct (occupied_pos_inv rest) as (j & c' & Hj); [lia|].
    by exists 0, (S j), c, c'.
  - destruct (IH H) as (i & j & c & c' & Hne & Hi & Hj).
    exists (S i), (S j), c, c'. split; [lia|done].
Qed.

(** X3.  [node_has_children] answers [TRUE] exactly when some slot of the
    node is occupied, and [node_has_multiple_children] exactly when two
    different slots are; so a node with several children has children. *)
Theorem children_tests_spec node :
  (node_has_children node = TRUE ↔ ∃ i c, get_child node i = Some c)
  ∧ (node_has_multiple_children node = TRUE ↔
     ∃ i j c c', i ≠ j ∧ get_child node i = Some c
                 ∧ get_child node j = Some c')
  ∧ (node_has_multiple_children node = TRUE →
     node_has_children node = TRUE).
Proof.
  assert (node_has_multiple_children node = TRUE ↔
          ∃ i j c c', i ≠ j ∧ get_child node i = Some c
                      ∧ get_child node j = Some c') as Hm.
  { unfold node_has_multiple_children.
    rewrite multiple_children_loop_spec by lia. simpl. split.
    - intros H. destruct (occupied_two_inv _ H) as (i & j & c & c' & ? & ? & ?).
      exists i, j, c, c'. by rewrite !get_child_lookup.
    - intros (i & j & c & c' & Hne & Hi & Hj).
      apply get_child_lookup in Hi, Hj. by eapply occupied_two. }
  split; [|split; [done|]].
  - split; [apply has_children_inv|].
    intros (i & c & H). by eapply has_children_get.
  - intros H. apply Hm in H as (i & _ & c & _ & _ & Hi & _).
    by eapply has_children_get.
Qed.

(** ** When [add_to_trie] succeeds *)

Lemma missing_fresh ch rest : missing rest (set_key zero_node ch) = length rest.
Proof. destruct rest; simpl; [done|]. by rewrite get_child_zero_node. Qed.

Lemma missing_le key node : missing key node ≤ length key.
Proof.
  revert node. induction key as [|ch rest IH]; intros node; simpl; [done|].
  destruct (get_child node (key_to_index ch)); [|done].
  specialize (IH n). lia.
Qed.

Lemma missing_0 key node :
  missing key node = 0 ↔ is_Some (deref node (path_of key)).
Proof.
  revert node. induction key as [|ch rest IH]; intros node; simpl.
  - split; [by eexists | done].
  - destruct (get_child node (key_to_index ch)) as [nxt|]; [apply IH|].
    split; [lia | by intros [? ?]].
Qed.

Lemma add_loop_succeeds heap key v node :
  fst (add_loop heap key v node) = TRUE ↔ missing key node ≤ heap.
Proof.
  revert heap node. induction key as [|ch rest IH]; intros heap node.
  - simpl. split; [lia | done].
  - cbn [add_loop missing].
    destruct (get_child node (key_to_index ch)) as [nxt|]; [apply IH|].
    destruct heap as [|heap']; cbn [malloc fst length].
    + split; [done | lia].
    + rewrite IH, missing_fresh. lia.
Qed.

(** X4.  [add_to_trie] answers [TRUE] exactly when [key_permitted] accepts
    the key and the allocator grants one node for each character past the
    part of the key's path that is already in the trie: it never fails for
    another reason.  No node is needed when the whole path exists, and
    never more than one for each character. *)
Theorem add_to_trie_succeeds_iff heap key v trie :
  (fst (add_to_trie heap key v trie) = TRUE ↔
   key_permitted key = TRUE
   ∧ missing (list_ascii_of_string key) (t_child trie) ≤ heap)
  ∧ missing (list_ascii_of_string key) (t_child trie) ≤ String.length key
  ∧ (missing (list_ascii_of_string key) (t_child trie) = 0 ↔
     is_Some (deref (t_child trie) (path_of (list_ascii_of_string key)))).
Proof.
  split; [|split].
  - unfold add_to_trie. destruct (key_permitted key); simpl.
    + rewrite add_loop_succeeds. split; [by intros H | by intros [_ H]].
    + split; [done | by intros [H _]].
  - rewrite string_length_chars. apply missing_le.
  - apply missing_0.
Qed.

(** X5.  An insert that fails changes no lookup: whatever the key, a
    lookup on the trie the failed call leaves answers what it answered
    before, although the call may have linked new nodes. *)
Theorem failed_add_keeps_lookups heap key v trie key' :
  wf_trie trie → fst (add_to_trie heap key v trie) = FALSE →
  lookup_in_trie (snd (add_to_trie heap key v trie)) key'
  = lookup_in_trie trie key'.
Proof.
  intros Hwf Hf. unfold add_to_trie in *.
  destruct (key_permitted key) eqn:Hk; simpl in *; [|done].
  destruct (key_permitted key') eqn:Hk'.
  - rewrite !lookup_in_trie_val_at by done. cbn [t_child].
    rewrite add_loop_val_at; [|done|by apply key_permitted_loop_Forall].
    by rewrite Hf.
  - unfold lookup_in_trie. by rewrite Hk'.
Qed.

Lemma failed_add_keeps_lookups_witness :
  lookup_in_trie (snd (add_to_trie 1 "ab" 5 empty_trie)) "a"
  = lookup_in_trie empty_trie "a"
  ∧ snd (add_to_trie 1 "ab" 5 empty_trie) ≠ empty_trie.
Proof.
  split; [|discriminate].
  apply (failed_add_keeps_lookups 1 "ab" 5 empty_trie "a"); reflexivity.
Defined.

Lemma add_loop_overwrite heap heap' key v1 v2 node :
  wf_node node = true → Forall (λ ch, lower_case ch = true) key →
  fst (add_loop heap key v1 node) = TRUE →
  add_loop heap' key v2 (snd (add_loop heap key v1 node))
  = (TRUE, snd (add_loop heap key v2 node)).
Proof.
  intros Hwf Hk. revert heap node Hwf.
  induction Hk as [|ch rest Hch _ IH]; intros heap node Hwf Hs; [done|].
  pose proof (wf_node_length _ Hwf) as Hlen.
  destruct (lower_case_index ch Hch) as [_ Hi].
  cbn [add_loop] in *.
  destruct (get_child node (key_to_index ch)) as [nxt|] eqn:E.
  - cbn [fst snd] in *. cbn [add_loop].
    rewrite get_child_set_child_eq by (rewrite Hlen; done).
    rewrite IH; [|by eapply wf_node_child|done]. cbn [fst snd].
    f_equal. unfold set_child. cbn [n_child n_key n_value n_has_value].
    by rewrite list_insert_insert_eq.
  - destruct heap as [|h]; cbn [malloc fst snd] in *; [done|].
    cbn [add_loop].
    rewrite get_child_set_child_eq by (rewrite Hlen; done).
    rewrite IH; [|apply wf_zero_node|done]. cbn [fst snd].
    f_equal. unfold set_child. cbn [n_child n_key n_value n_has_value].
    by rewrite list_insert_insert_eq.
Qed.

(** X6.  Once a key has been inserted, inserting it again needs no memory
    and leaves the very trie a single insert of the new value would have
    built; with the same value it leaves the trie as it is. *)
Theorem add_twice heap heap' key v1 v2 trie :
  wf_trie trie → fst (add_to_trie heap key v1 trie) = TRUE →
  add_to_trie heap' key v2 (snd (add_to_trie heap key v1 trie))
  = (TRUE, snd (add_to_trie heap key v2 trie))
  ∧ add_to_trie heap' key v1 (snd (add_to_trie heap key v1 trie))
    = (TRUE, snd (add_to_trie heap key v1 trie)).
Proof.
  intros Hwf Hs. unfold add_to_trie in *.
  destruct (key_permitted key) eqn:Hk; simpl in *; [|done].
  apply key_permitted_loop_Forall in Hk.
  by rewrite !add_loop_overwrite.
Qed.

Lemma add_twice_witness :
  add_to_trie 0 "ab" 9 (snd (add_to_trie 2 "ab" 1 empty_trie))
  = (TRUE, snd (add_to_trie 2 "ab" 9 empty_trie)).
Proof.
  apply (add_twice 2 0 "ab" 1 9 empty_trie); reflexivity.
Defined.

(** ** How [delete_from_trie] fails *)

(** X7.  A delete that answers [FALSE] has changed nothing and released
    nothing, whatever made it fail: a key that [key_permitted] rejects, no
    memory for its array, or a key that is not stored. *)
Theorem failed_delete_changes_nothing heap trie key r :
  delete_from_trie heap trie key = Some r → d_ret r = FALSE →
  d_trie r = trie ∧ d_freed r = [].
Proof.
  intros E Hf. destruct (key_cases key) as [->|[Hk|Hk]].
  - destruct heap as [|h].
    + rewrite delete_from_trie_no_block in E. by injection E as <-.
    + rewrite delete_from_trie_empty in E.
      destruct (n_has_value (t_child trie)); simpl in E;
        [|by injection E as <-].
      destruct (node_has_children (t_child trie)); [|done].
      injection E as <-. done.
  - rewrite delete_from_trie_rejected in E by done. by injection E as <-.
  - destruct (delete_valid heap trie key Hk)
      as [E'|(root' & freed & E' & _)]; rewrite E' in E;
      injection E as <-; done.
Qed.

Lemma failed_delete_changes_nothing_witness :
  let trie := snd (add_to_trie 2 "ab" 1 empty_trie) in
  ∃ r, delete_from_trie 0 trie "ab" = Some r
       ∧ d_trie r = trie ∧ d_freed r = [].
Proof.
  intros trie.
  destruct (delete_from_trie 0 trie "ab") as [r|] eqn:E;
    [|by vm_compute in E].
  exists r. split; [done|].
  apply (failed_delete_changes_nothing 0 trie "ab" r E).
  vm_compute in E. by injection E as <-.
Defined.

Lemma delete_from_trie_None heap trie key :
  delete_from_trie heap trie key = None ↔
  key = EmptyString ∧ 0 < heap
  ∧ n_has_value (t_child trie) = true
  ∧ node_has_children (t_child trie) = false.
Proof.
  split.
  - intros E. destruct (decide (key = EmptyString)) as [->|Hne].
    + split; [done|]. destruct heap as [|h].
      { by rewrite delete_from_trie_no_block in E. }
      split; [lia|]. rewrite delete_from_trie_empty in E.
      destruct (n_has_value (t_child trie)); simpl in E; [|done].
      by destruct (node_has_children (t_child trie)).
    + destruct (delete_from_trie_defined heap trie key Hne) as [r Hr].
      congruence.
  - intros (-> & Hh & Hv & Hc). destruct heap as [|h]; [lia|].
    by rewrite delete_from_trie_empty, Hv, Hc.
Qed.

(** X8.  Called with a trie pointer that is [NULL] or points to a trie,
    [delete_from_trie] has defined behaviour on every call but two.  On
    [NULL], which [create_trie] returns when it fails, a key that
    [key_permitted] accepts makes the function read [trie->child], which
    it does without a test of [trie]; a key that is rejected returns
    [FALSE] before that read.  On a trie, the empty key has no defined
    behaviour when the array is granted and the root node carries a value
    (which only an insert under the empty key puts there) and has no
    child: there the function stores through
    [starting_index_being_freed], which it never assigned. *)
Theorem delete_undefined_iff heap trie key :
  (delete_from_trie_ptr heap trie key = None ↔
   (trie = None ∧ key_permitted key = TRUE)
   ∨ ∃ t, trie = Some t ∧ key = EmptyString ∧ 0 < heap
          ∧ n_has_value (t_child t) = true
          ∧ node_has_children (t_child t) = false)
  ∧ (key_permitted key = FALSE →
     delete_from_trie_ptr heap trie key = Some (FALSE, trie, [])).
Proof.
  split.
  - destruct trie as [t|]; cbn [delete_from_trie_ptr].
    + split.
      * intros E. right. exists t. split; [done|].
        apply delete_from_trie_None.
        by destruct (delete_from_trie heap t key).
      * intros [[? _]|(t' & [= <-] & H)]; [done|].
        apply delete_from_trie_None in H. by rewrite H.
    + destruct (key_permitted key); simpl.
      * split; [by left | done].
      * split; [done|]. intros [[_ ?]|(t & ? & _)]; done.
  - intros Hk. destruct trie as [t|]; cbn [delete_from_trie_ptr].
    + by rewrite delete_from_trie_rejected.
    + by rewrite Hk.
Qed.

(** ** The nodes [delete_from_trie] hands to [free] *)

(** X9.  On a valid key [delete_from_trie] frees exactly the nodes it cuts
    off: the pointers handed to [free] are those that reached a node
    before the call and reach none after it.  No pointer is freed twice,
    each one lies on the path of the key, and the root node is never
    among them.  The call links no node: whatever is reachable after it
    was reachable before. *)
Theorem delete_frees_exactly heap trie key r :
  valid_key key → delete_from_trie heap trie key = Some r →
  NoDup (d_freed r)
  ∧ (∀ p, p ∈ d_freed r ↔
          is_Some (deref (t_child trie) p)
          ∧ deref (t_child (d_trie r)) p = None)
  ∧ (∀ p, p ∈ d_freed r →
          p ≠ [] ∧ p `prefix_of` path_of (list_ascii_of_string key))
  ∧ ∀ p, is_Some (deref (t_child (d_trie r)) p) →
         is_Some (deref (t_child trie) p).
Proof.
  intros Hk E. split; [by eapply delete_freed_NoDup|].
  split; [intros p; by eapply delete_frees_detached|]. split.
  - intros p Hp.
    destruct (delete_freed_cases heap trie key r Hk E)
      as [[Hnil _]|(K & s & m & _ & _ & _ & Hfreed & _)].
    + rewrite Hnil in Hp. by apply elem_of_nil in Hp.
    + rewrite Hfreed in Hp. apply elem_of_freed in Hp as (j & Hj & ->).
      split.
      * intros Hnil. apply (f_equal length) in Hnil.
        rewrite length_take, length_nil in Hnil. lia.
      * eexists. symmetry. apply take_drop.
  - intros p Hp.
    destruct (delete_valid heap trie key Hk)
      as [E'|(root' & freed & E' & Hrem & _)];
      rewrite E' in E; injection E as <-; [done|].
    by eapply removed_deref_back.
Qed.

Lemma delete_frees_exactly_witness :
  let trie := snd (add_to_trie 3 "abc" 2 (snd (add_to_trie 1 "a" 1 empty_trie)))
  in ∃ r, delete_from_trie 1 trie "abc" = Some r
          ∧ d_freed r = [[0; 1; 2]; [0; 1]] ∧ NoDup (d_freed r).
Proof.
  intros trie.
  destruct (delete_from_trie 1 trie "abc") as [r|] eqn:E;
    [|by vm_compute in E].
  exists r. split; [done|]. split.
  - vm_compute in E. by injection E as <-.
  - apply (delete_frees_exactly 1 trie "abc" r);
      [by apply valid_key_intro | exact E].
Defined.

(** ** The trie [create_trie] returns *)

Lemma delete_from_empty_trie heap key :
  delete_from_trie heap empty_trie key = Some (mk_del FALSE empty_trie []).
Proof.
  destruct (key_cases key) as [->|[Hk|Hk]].
  - destruct heap; [apply delete_from_trie_no_block|].
    rewrite delete_from_trie_empty. reflexivity.
  - by apply delete_from_trie_rejected.
  - apply delete_absent; [done|].
    rewrite <- lookup_in_trie_val_at by (by apply valid_key_permitted).
    apply lookup_in_trie_empty_trie.
Qed.

(** ** The fields of the nodes *)

Lemma labelled_unfold node :
  labelled node ↔
  ∀ i c, get_child node i = Some c → proper i c ∧ labelled c.
Proof.
  split.
  - intros H i c Hc. split.
    + apply (H [] i c). simpl. by rewrite Hc.
    + intros p j m Hm. apply (H (i :: p) j m). simpl. by rewrite Hc.
  - intros H p i m Hm. destruct p as [|j p]; simpl in Hm.
    + destruct (get_child node i) as [c|] eqn:Hc; [|done].
      injection Hm as ->. by apply (H i m).
    + destruct (get_child node j) as [c|] eqn:Hc; [|done].
      destruct (H j c Hc) as [_ Hl]. by apply (Hl p i m).
Qed.

Lemma labelled_zero_node ch : labelled (set_key zero_node ch).
Proof.
  apply labelled_unfold. intros i c Hc.
  by rewrite get_child_zero_node in Hc.
Qed.

Lemma labelled_set_child node i o :
  labelled node → (∀ c, o = Some c → proper i c ∧ labelled c) →
  labelled (set_child node i o).
Proof.
  intros H Ho. rewrite labelled_unfold in H. apply labelled_unfold.
  intros j c E. destruct (decide (i = j)) as [<-|Hne].
  - destruct (decide (i < length (n_child node))) as [Hlt|Hge].
    + rewrite get_child_set_child_eq in E by done. by apply Ho.
    + apply get_child_lt in E. unfold set_child in E. simpl in E.
      rewrite length_insert in E. lia.
  - rewrite get_child_set_child_ne in E by done. eauto.
Qed.

Lemma labelled_fields node v b :
  labelled (set_has_value (set_value node v) b) ↔ labelled node.
Proof. rewrite !labelled_unfold. by destruct node. Qed.

Lemma proper_fresh ch :
  lower_case ch = true → proper (key_to_index ch) (set_key zero_node ch).
Proof. intros Hch. split; [|done]. simpl. by rewrite index_to_key_to_index. Qed.

Lemma add_loop_proper i heap key v node :
  proper i node → proper i (snd (add_loop heap key v node)).
Proof.
  intros [Hkey Hval]. destruct key as [|ch rest]; cbn [add_loop].
  - split; [done|]. simpl. done.
  - destruct (get_child node (key_to_index ch)); [done|].
    by destruct (malloc heap).
Qed.

Lemma add_loop_root_fields heap ch rest v node :
  let node' := snd (add_loop heap (ch :: rest) v node) in
  n_key node' = n_key node ∧ n_value node' = n_value node
  ∧ n_has_value node' = n_has_value node.
Proof.
  cbn [add_loop]. destruct (get_child node (key_to_index ch)); [done|].
  by destruct (malloc heap).
Qed.

Lemma add_loop_labelled heap key v node :
  wf_node node = true → Forall (λ ch, lower_case ch = true) key →
  labelled node → labelled (snd (add_loop heap key v node)).
Proof.
  intros Hwf Hk. revert heap node Hwf.
  induction Hk as [|ch rest Hch Hk IH]; intros heap node Hwf Hl.
  - cbn [add_loop snd]. by apply labelled_fields.
  - destruct (add_loop_cons v heap ch rest node)
      as [(_ & _ & E)|(nxt & heap' & E & Hnxt)]; rewrite E; [done|].
    cbn [snd].
    assert (wf_node nxt = true ∧ proper (key_to_index ch) nxt
            ∧ labelled nxt) as (Hwf' & Hp' & Hl').
    { destruct Hnxt as [[E' _]|(_ & -> & _)].
      - split; [by eapply wf_node_child|].
        rewrite labelled_unfold in Hl. by apply (Hl _ _ E').
      - split; [apply wf_zero_node|].
        split; [by apply proper_fresh | apply labelled_zero_node]. }
    apply labelled_set_child; [done|]. intros c [= <-]. split.
    + by apply add_loop_proper.
    + by apply IH.
Qed.

Lemma removed_proper i top xs n n' :
  removed top xs n n' → proper i n → proper i n'.
Proof. intros H [Hkey Hval]. by destruct H. Qed.

Lemma removed_root_fields top x xs n n' :
  removed top (x :: xs) n n' →
  n_key n' = n_key n ∧ n_value n' = n_value n
  ∧ n_has_value n' = n_has_value n.
Proof. intros H. by inversion H. Qed.

Lemma removed_labelled top xs n n' :
  removed top xs n n' → labelled n → labelled n'.
Proof.
  induction 1 as [top n Hv Hc|top s ys n c Hs Hd _|top x xs n c c' Hx Hr IH];
    intros Hl.
  - unfold clear_value. rewrite labelled_unfold in *. by destruct n.
  - by apply labelled_set_child.
  - rewrite labelled_unfold in Hl. destruct (Hl _ _ Hx) as [Hp Hlc].
    apply labelled_set_child; [by apply labelled_unfold|].
    intros ? [= <-]. split; [by eapply removed_proper | by apply IH].
Qed.

(** ** The invariant [canonical] *)

Lemma canonical_empty : canonical empty_trie.
Proof.
  split; [done|]. split; [done|]. split; [|done].
  apply (labelled_zero_node zero).
Qed.

Lemma canonical_add heap key v trie :
  valid_key key → canonical trie →
  fst (add_to_trie heap key v trie) = TRUE →
  canonical (snd (add_to_trie heap key v trie)).
Proof.
  intros Hk (Hwf & Ht & Hl & Hroot) Hs.
  split; [by apply add_to_trie_wf|].
  split; [apply add_to_trie_tidy; auto|].
  destruct (valid_key_cons key Hk) as (ch & rest & E & Hch & Hrest).
  rewrite add_to_trie_permitted by (by apply valid_key_permitted).
  cbn [snd t_child]. split.
  - apply add_loop_labelled; [done| |done]. rewrite E. by constructor.
  - rewrite E.
    destruct (add_loop_root_fields heap ch rest v (t_child trie))
      as (-> & -> & ->). done.
Qed.

Lemma canonical_delete heap key trie r :
  valid_key key → canonical trie →
  delete_from_trie heap trie key = Some r → canonical (d_trie r).
Proof.
  intros Hk Hc E.
  destruct (delete_valid heap trie key Hk)
    as [E'|(root' & freed & E' & Hrem & _)];
    rewrite E' in E; injection E as <-; [done|].
  destruct Hc as (Hwf & Ht & Hl & Hroot). cbn [d_trie].
  split; [by eapply removed_wf|]. split; [by eapply removed_tidy|].
  split; [by eapply removed_labelled|]. cbn [t_child].
  destruct (valid_key_cons key Hk) as (ch & rest & Ech & _).
  rewrite Ech in Hrem. cbn [path_of fmap list_fmap] in Hrem.
  destruct (removed_root_fields _ _ _ _ _ Hrem) as (-> & -> & ->). done.
Qed.

Lemma run_canonical ops trie trace trie' :
  valid_ops ops → canonical trie → run ops trie = Some (trace, trie') →
  no_failed_add trace → canonical trie'.
Proof.
  intros Hops. revert trie trace trie'.
  induction Hops as [|o ops Ho _ IH]; intros trie trace trie' Hc Hrun Hnf.
  - simpl in Hrun. by injection Hrun as <- <-.
  - destruct o as [heap key v|heap key]; cbn [run op_key] in *.
    + destruct (run ops (snd (add_to_trie heap key v trie)))
        as [[trace1 trie1]|] eqn:E; [|done].
      injection Hrun as <- <-. inversion Hnf as [|c l Hc1 Hl]; subst.
      apply (IH (snd (add_to_trie heap key v trie)) trace1 trie1); [|done..].
      apply canonical_add; [done..|].
      by destruct (fst (add_to_trie heap key v trie)).
    + destruct (delete_from_trie heap trie key) as [r|] eqn:Er; [|done].
      destruct (run ops (d_trie r)) as [[trace1 trie1]|] eqn:E; [|done].
      injection Hrun as <- <-. inversion Hnf as [|c l Hc1 Hl]; subst.
      apply (IH (d_trie r) trace1 trie1); [|done..].
      by eapply canonical_delete.
Qed.

(** ** The shape of a canonical trie is fixed by its bindings *)

Lemma labelled_ext n1 :
  ∀ n2,
    wf_node n1 = true → wf_node n2 = true →
    tidy_node n1 = true → tidy_node n2 = true →
    labelled n1 → labelled n2 →
    n_key n1 = n_key n2 → n_value n1 = n_value n2 →
    n_has_value n1 = n_has_value n2 →
    (∀ q, q ≠ [] → Forall (λ i, i < NUM_CHILD) q →
          val_at n1 q = val_at n2 q) →
    n1 = n2.
Proof.
  induction n1 as [n1 IH] using node_t_child_ind.
  intros n2 Hwf1 Hwf2 Ht1 Ht2 Hl1 Hl2 Hkey Hval Hhas Hq.
  assert (n_child n1 = n_child n2) as Hch.
  { pose proof (wf_node_length _ Hwf1) as Hlen1.
    pose proof (wf_node_length _ Hwf2) as Hlen2.
    assert (∀ i a b c,
              wf_node a = true → tidy_node a = true → i < NUM_CHILD →
              (∀ q, q ≠ [] → Forall (λ i, i < NUM_CHILD) q →
                    val_at a q = val_at b q) →
              get_child a i = Some c → is_Some (get_child b i)) as Hsome.
    { intros i a b c Hwfa Hta Hi Hab Hc.
      rewrite tidy_node_unfold in Hta. destruct (Hta _ _ Hc) as [Hlc Htc].
      destruct (stored_below c (wf_node_child _ _ _ Hwfa Hc) Htc Hlc)
        as (p & v & Hp & Hall).
      specialize (Hab (i :: p)). rewrite !val_at_cons, Hc, Hp in Hab.
      destruct (get_child b i); [by eexists|].
      discriminate Hab; [done | by constructor]. }
    apply list_eq. intros i.
    destruct (decide (i < NUM_CHILD)) as [Hi|Hi].
    - destruct (get_child n1 i) as [c1|] eqn:E1;
        destruct (get_child n2 i) as [c2|] eqn:E2.
      + pose proof E1 as E1'. pose proof E2 as E2'.
        apply get_child_lookup in E1', E2'. rewrite E1', E2'.
        do 2 f_equal.
        pose proof Hl1 as Hl1'. pose proof Hl2 as Hl2'.
        rewrite labelled_unfold in Hl1', Hl2'.
        destruct (Hl1' _ _ E1) as [[Hk1 Hz1] Hlc1].
        destruct (Hl2' _ _ E2) as [[Hk2 Hz2] Hlc2].
        pose proof Ht1 as Ht1'. pose proof Ht2 as Ht2'.
        rewrite tidy_node_unfold in Ht1', Ht2'.
        destruct (Ht1' _ _ E1) as [_ Htc1].
        destruct (Ht2' _ _ E2) as [_ Htc2].
        assert (val_at c1 [] = val_at c2 []) as Hv.
        { pose proof (Hq [i]) as Hq1. rewrite !val_at_cons, E1, E2 in Hq1.
          apply Hq1; [done | constructor; [done | constructor]]. }
        rewrite !val_at_nil in Hv.
        apply (IH i c1 E1 c2);
          [exact (wf_node_child _ _ _ Hwf1 E1)
          | exact (wf_node_child _ _ _ Hwf2 E2) | done | done | done | done
          | congruence | | |].
        * destruct (n_has_value c1), (n_has_value c2); try done;
            [congruence | by rewrite Hz1, Hz2].
        * by destruct (n_has_value c1), (n_has_value c2).
        * intros q Hne Hall. pose proof (Hq (i :: q)) as Hq1.
          rewrite !val_at_cons, E1, E2 in Hq1.
          apply Hq1; [done | by constructor].
      + destruct (Hsome i n1 n2 c1 Hwf1 Ht1 Hi Hq E1) as [? ?]. congruence.
      + assert (∀ q, q ≠ [] → Forall (λ i, i < NUM_CHILD) q →
                     val_at n2 q = val_at n1 q) as Hq'.
        { intros q ? ?. symmetry. by apply Hq. }
        destruct (Hsome i n2 n1 c2 Hwf2 Ht2 Hi Hq' E2) as [? ?]. congruence.
      + unfold get_child in E1, E2.
        destruct (lookup_lt_is_Some_2 (n_child n1) i) as [o1 Ho1];
          [by rewrite Hlen1|].
        destruct (lookup_lt_is_Some_2 (n_child n2) i) as [o2 Ho2];
          [by rewrite Hlen2|].
        rewrite Ho1, Ho2 in *. simpl in *. congruence.
    - rewrite !lookup_ge_None_2; [done | rewrite Hlen2; lia
                                  | rewrite Hlen1; lia]. }
  destruct n1, n2; simpl in *. congruence.
Qed.

Lemma canonical_eq t1 t2 :
  canonical t1 → canonical t2 →
  (∀ key, valid_key key → lookup_in_trie t1 key = lookup_in_trie t2 key) →
  t1 = t2.
Proof.
  intros (Hwf1 & Ht1 & Hl1 & Hk1 & Hv1 & Hh1)
         (Hwf2 & Ht2 & Hl2 & Hk2 & Hv2 & Hh2) Hlook.
  destruct t1 as [n1], t2 as [n2]; cbn [t_child] in *. f_equal.
  apply labelled_ext; try done; try congruence.
  intros q Hne Hall.
  destruct (path_to_key _ Hall) as (k & Hk & Hpath).
  assert (valid_key (string_of_list_ascii k)) as Hvalid.
  { split.
    - intros E. apply (f_equal list_ascii_of_string) in E.
      rewrite list_ascii_of_string_of_list_ascii in E. subst k.
      by subst q.
    - by rewrite list_ascii_of_string_of_list_ascii. }
  specialize (Hlook _ Hvalid).
  rewrite !lookup_in_trie_val_at in Hlook by by apply valid_key_permitted.
  by rewrite list_ascii_of_string_of_list_ascii, Hpath in Hlook.
Qed.

(** ** The fields of the nodes under any sequence of calls *)

Lemma wf_node_deref n p m :
  wf_node n = true → deref n p = Some m → wf_node m = true.
Proof.
  revert n. induction p as [|i p IH]; intros n Hwf Hm; simpl in Hm.
  - by injection Hm as <-.
  - destruct (get_child n i) as [c|] eqn:Hc; [|done].
    apply (IH c); [by eapply wf_node_child | done].
Qed.

Lemma add_to_trie_fields heap key v trie :
  valid_key key → wf_trie trie → labelled (t_child trie) →
  let root' := t_child (snd (add_to_trie heap key v trie)) in
  labelled root'
  ∧ n_key root' = n_key (t_child trie)
  ∧ n_value root' = n_value (t_child trie)
  ∧ n_has_value root' = n_has_value (t_child trie).
Proof.
  intros Hk Hwf Hl.
  destruct (valid_key_cons key Hk) as (ch & rest & E & Hch & Hrest).
  rewrite add_to_trie_permitted by (by apply valid_key_permitted).
  cbn [snd t_child]. split.
  - apply add_loop_labelled; [done| |done]. rewrite E. by constructor.
  - rewrite E. apply add_loop_root_fields.
Qed.

Lemma delete_from_trie_fields heap key trie r :
  valid_key key → labelled (t_child trie) →
  delete_from_trie heap trie key = Some r →
  let root' := t_child (d_trie r) in
  labelled root'
  ∧ n_key root' = n_key (t_child trie)
  ∧ n_value root' = n_value (t_child trie)
  ∧ n_has_value root' = n_has_value (t_child trie).
Proof.
  intros Hk Hl E.
  destruct (delete_valid heap trie key Hk)
    as [E'|(root' & freed & E' & Hrem & _)];
    rewrite E' in E; injection E as <-; [done|].
  cbn [d_trie t_child]. split; [by eapply removed_labelled|].
  destruct (valid_key_cons key Hk) as (ch & rest & Ech & _).
  rewrite Ech in Hrem. cbn [path_of fmap list_fmap] in Hrem.
  by eapply removed_root_fields.
Qed.

Lemma run_fields ops trie trace trie' :
  valid_ops ops → run ops trie = Some (trace, trie') →
  wf_trie trie → labelled (t_child trie) →
  wf_trie trie' ∧ labelled (t_child trie')
  ∧ n_key (t_child trie') = n_key (t_child trie)
  ∧ n_value (t_child trie') = n_value (t_child trie)
  ∧ n_has_value (t_child trie') = n_has_value (t_child trie).
Proof.
  intros Hops. revert trie trace trie'.
  induction Hops as [|o ops Ho _ IH]; intros trie trace trie' Hrun Hwf Hl.
  - simpl in Hrun. by injection Hrun as <- <-.
  - destruct o as [heap key v|heap key]; cbn [run op_key] in *.
    + destruct (run ops (snd (add_to_trie heap key v trie)))
        as [[trace1 trie1]|] eqn:E; [|done].
      injection Hrun as <- <-.
      destruct (add_to_trie_fields heap key v trie Ho Hwf Hl)
        as (Hl1 & <- & <- & <-).
      apply (IH (snd (add_to_trie heap key v trie)) trace1 trie1);
        [done | by apply add_to_trie_wf | done].
    + destruct (delete_from_trie heap trie key) as [r|] eqn:Er; [|done].
      destruct (run ops (d_trie r)) as [[trace1 trie1]|] eqn:E; [|done].
      injection Hrun as <- <-.
      destruct (delete_from_trie_fields heap key trie r Ho Hl Er)
        as (Hl1 & <- & <- & <-).
      apply (IH (d_trie r) trace1 trie1);
        [done | by eapply delete_from_trie_wf | done].
Qed.

(** X10.  After any sequence of inserts and deletes on valid keys, run
    from the trie [create_trie] returns (inserts that ran out of memory
    included): the [key] field of every node but the root is the letter of
    the slot the node hangs in, which [key_to_index] maps back to that
    slot; a node that carries no value holds [0] in [value]; and the
    fields of the root node are as [memset] left them.  When no insert
    failed the trie is [canonical]. *)
Theorem node_fields_invariant heap trie0 ops trace trie :
  create_trie heap = Some trie0 → valid_ops ops →
  run ops trie0 = Some (trace, trie) →
  (∀ p i m, deref (t_child trie) (p ++ [i]) = Some m →
            i < NUM_CHILD ∧ n_key m = index_to_key i
            ∧ key_to_index (n_key m) = i
            ∧ (n_has_value m = false → n_value m = 0%Z))
  ∧ n_key (t_child trie) = zero
  ∧ n_value (t_child trie) = 0%Z
  ∧ n_has_value (t_child trie) = false
  ∧ (no_failed_add trace → canonical trie).
Proof.
  intros Hc Hops Hrun. apply create_trie_Some in Hc as [_ ->].
  destruct canonical_empty as (Hwf0 & _ & Hl0 & _).
  destruct (run_fields ops empty_trie trace trie Hops Hrun Hwf0 Hl0)
    as (Hwf & Hl & Hk & Hv & Hh).
  split; [|split; [done|split; [done|split; [done|]]]].
  - intros p i m Hm. destruct (Hl p i m Hm) as [Hkey Hz].
    assert (i < NUM_CHILD) as Hi.
    { rewrite deref_app in Hm.
      destruct (deref (t_child trie) p) as [n|] eqn:Hn; [|done].
      simpl in Hm. destruct (get_child n i) as [c|] eqn:Hci; [|done].
      rewrite <- (wf_node_length n); [by eapply get_child_lt|].
      by eapply wf_node_deref. }
    split; [done|]. split; [done|]. split; [|done].
    rewrite Hkey. by apply index_to_key_spec.
  - intros Hnf.
    by apply (run_canonical ops empty_trie trace trie Hops canonical_empty).
Qed.

Lemma node_fields_invariant_witness :
  ∃ trace trie,
    run [Add 2 "ab" 1; Add 1 "cd" 2; Del 1 "ab"] empty_trie
      = Some (trace, trie)
    ∧ deref (t_child trie) [2] = Some (set_key zero_node "c")
    ∧ n_has_value (t_child trie) = false.
Proof.
  set (ops := [Add 2 "ab" 1; Add 1 "cd" 2; Del 1 "ab"]).
  assert (valid_ops ops) as Hops.
  { repeat constructor; by apply valid_key_intro. }
  assert (create_trie 2 = Some empty_trie) as Hc by reflexivity.
  destruct (run ops empty_trie) as [[trace trie]|] eqn:Hrun;
    [|by vm_compute in Hrun].
  exists trace, trie. split; [done|]. split.
  - vm_compute in Hrun. by injection Hrun as _ <-.
  - by destruct (node_fields_invariant 2 empty_trie ops trace trie
                   Hc Hops Hrun) as (_ & _ & _ & Hroot & _).
Defined.

(** ** The trie as a function of its bindings *)

Lemma run_determined ops trace trie trie' :
  valid_ops ops → run ops empty_trie = Some (trace, trie) →
  no_failed_add trace → canonical trie' →
  (∀ key, valid_key key →
          lookup_in_trie trie' key = map_run trace ∅ !! key) →
  trie = trie'.
Proof.
  intros Hops Hrun Hnf Hc' Hl'.
  destruct (run_represents ops empty_trie ∅ Hops represents_empty)
    as (trace1 & trie1 & Hrun1 & _ & [_ Hl] & _).
  rewrite Hrun in Hrun1. injection Hrun1 as <- <-.
  apply canonical_eq; [|done|].
  - by apply (run_canonical ops empty_trie trace trie Hops canonical_empty).
  - intros key Hk. by rewrite Hl, Hl'.
Qed.

(** X11.  Two sequences of calls on valid keys in which no insert failed,
    each run from a fresh trie, that end with the same bindings end with
    the same trie, node for node: the trie keeps no trace of the order of
    the calls nor of the keys that were deleted.  In particular it is the
    fresh trie again once every key is deleted. *)
Theorem same_bindings_same_trie ops1 ops2 trace1 trace2 trie1 trie2 :
  valid_ops ops1 → valid_ops ops2 →
  run ops1 empty_trie = Some (trace1, trie1) →
  run ops2 empty_trie = Some (trace2, trie2) →
  no_failed_add trace1 → no_failed_add trace2 →
  map_run trace1 ∅ = map_run trace2 ∅ →
  trie1 = trie2
  ∧ (map_run trace1 ∅ = ∅ → trie1 = empty_trie).
Proof.
  intros Hops1 Hops2 Hrun1 Hrun2 Hnf1 Hnf2 Hmap. split.
  - apply (run_determined ops1 trace1 trie1 trie2 Hops1 Hrun1 Hnf1).
    + by apply (run_canonical ops2 empty_trie trace2 trie2 Hops2
                  canonical_empty).
    + destruct (run_represents ops2 empty_trie ∅ Hops2 represents_empty)
        as (trace' & trie' & Hrun' & _ & [_ Hl] & _).
      rewrite Hrun2 in Hrun'. injection Hrun' as <- <-.
      intros key Hk. by rewrite Hl, Hmap.
  - intros Hempty.
    apply (run_determined ops1 trace1 trie1 empty_trie Hops1 Hrun1 Hnf1
             canonical_empty).
    intros key Hk. by rewrite Hempty, lookup_empty, lookup_in_trie_empty_trie.
Qed.

Lemma same_bindings_same_trie_witness :
  ∃ trace1 trace2 trie,
    run [Add 2 "ab" 1; Add 2 "cd" 2; Add 1 "a" 3; Del 1 "ab"] empty_trie
      = Some (trace1, trie)
    ∧ run [Add 1 "a" 5; Add 0 "a" 3; Add 2 "cd" 2] empty_trie
      = Some (trace2, trie).
Proof.
  set (ops1 := [Add 2 "ab" 1; Add 2 "cd" 2; Add 1 "a" 3; Del 1 "ab"]).
  set (ops2 := [Add 1 "a" 5; Add 0 "a" 3; Add 2 "cd" 2]).
  assert (valid_ops ops1) as Hops1.
  { repeat constructor; by apply valid_key_intro. }
  assert (valid_ops ops2) as Hops2.
  { repeat constructor; by apply valid_key_intro. }
  destruct (run ops1 empty_trie) as [[trace1 trie1]|] eqn:Hrun1;
    [|by vm_compute in Hrun1].
  destruct (run ops2 empty_trie) as [[trace2 trie2]|] eqn:Hrun2;
    [|by vm_compute in Hrun2].
  assert (trace1 = [(Add 2 "ab" 1%Z, true); (Add 2 "cd" 2%Z, true);
                    (Add 1 "a" 3%Z, true); (Del 1 "ab", true)]) as Ht1.
  { vm_compute in Hrun1. by injection Hrun1 as <- _. }
  assert (trace2 = [(Add 1 "a" 5%Z, true); (Add 0 "a" 3%Z, true);
                    (Add 2 "cd" 2%Z, true)]) as Ht2.
  { vm_compute in Hrun2. by injection Hrun2 as <- _. }
  exists trace1, trace2, trie1. split; [done|].
  destruct (same_bindings_same_trie ops1 ops2 trace1 trace2 trie1 trie2
              Hops1 Hops2 Hrun1 Hrun2) as [-> _]; [..|done].
  - rewrite Ht1. by repeat constructor.
  - rewrite Ht2. by repeat constructor.
  - rewrite Ht1, Ht2. apply map_eq. intros k. vm_compute. reflexivity.
Defined.

(** ** Round trips *)

(** X12.  Inserting a key that is not stored and deleting it again gives
    back the trie as it was, node for node, and the delete frees exactly
    the nodes the insert had linked. *)
Theorem add_then_delete_restores heap heap' key v trie :
  canonical trie → valid_key key → lookup_in_trie trie key = None →
  fst (add_to_trie heap key v trie) = TRUE → 0 < heap' →
  ∃ r, delete_from_trie heap' (snd (add_to_trie heap key v trie)) key = Some r
       ∧ d_ret r = TRUE ∧ d_trie r = trie
       ∧ ∀ p, p ∈ d_freed r ↔
              is_Some (deref (t_child (snd (add_to_trie heap key v trie))) p)
              ∧ deref (t_child trie) p = None.
Proof.
  intros Hc Hk Hnone Hs Hh.
  pose proof (canonical_add heap key v trie Hk Hc Hs) as Hc1.
  assert (lookup_in_trie (snd (add_to_trie heap key v trie)) key = Some v)
    as Hv.
  { rewrite add_to_trie_lookup by (done || apply Hc).
    by rewrite Hs, bool_decide_eq_true_2. }
  destruct (delete_from_trie_lookup heap'
              key (snd (add_to_trie heap key v trie)) key Hk Hk)
    as (r & E & Hret & _).
  rewrite Hv, !bool_decide_eq_true_2 in Hret by (done || by eexists).
  assert (d_trie r = trie) as Heq.
  { apply canonical_eq; [by eapply canonical_delete | done|].
    intros key' Hk'.
    destruct (delete_from_trie_lookup heap'
                key (snd (add_to_trie heap key v trie)) key' Hk Hk')
      as (r' & E' & _ & Hl).
    rewrite E in E'. injection E' as <-. rewrite Hl, Hret. simpl.
    rewrite add_to_trie_lookup by (done || apply Hc). rewrite Hs. simpl.
    case_bool_decide; by subst. }
  exists r. split; [done|]. split; [done|]. split; [done|].
  intros p. rewrite <- Heq at 2. by eapply delete_frees_detached.
Qed.

Lemma add_then_delete_restores_witness :
  let trie := snd (add_to_trie 2 "ab" 1 empty_trie) in
  ∃ r, delete_from_trie 1 (snd (add_to_trie 2 "abcd" 7 trie)) "abcd" = Some r
       ∧ d_trie r = trie ∧ d_freed r = [[0; 1; 2; 3]; [0; 1; 2]].
Proof.
  intros trie.
  assert (valid_key "ab") as Hab by (by apply valid_key_intro).
  assert (valid_key "abcd") as Hk by (by apply valid_key_intro).
  assert (canonical trie) as Hc.
  { by apply (canonical_add 2 "ab" 1 empty_trie Hab canonical_empty). }
  destruct (add_then_delete_restores 2 1 "abcd" 7 trie Hc Hk)
    as (r & E & _ & Heq & _); [reflexivity | reflexivity | lia |].
  exists r. split; [done|]. split; [done|].
  vm_compute in E. by injection E as <-.
Defined.

(** X13.  Deleting a stored key and inserting it again with the value it
    had gives back the trie as it was, node for node, whenever the insert
    gets the memory it needs. *)
Theorem delete_then_add_restores heap key v trie :
  canonical trie → valid_key key → lookup_in_trie trie key = Some v →
  0 < heap →
  ∃ r, delete_from_trie heap trie key = Some r ∧ d_ret r = TRUE
       ∧ ∀ heap', fst (add_to_trie heap' key v (d_trie r)) = TRUE →
                  add_to_trie heap' key v (d_trie r) = (TRUE, trie).
Proof.
  intros Hc Hk Hv Hh.
  destruct (delete_from_trie_lookup heap key trie key Hk Hk)
    as (r & E & Hret & _).
  rewrite Hv, !bool_decide_eq_true_2 in Hret by (done || by eexists).
  pose proof (canonical_delete heap key trie r Hk Hc E) as Hc1.
  exists r. split; [done|]. split; [done|]. intros heap' Hs.
  rewrite (surjective_pairing (add_to_trie heap' key v (d_trie r))), Hs.
  f_equal. apply canonical_eq; [by apply canonical_add | done|].
  intros key' Hk'.
  rewrite add_to_trie_lookup by (done || apply Hc1). rewrite Hs. simpl.
  case_bool_decide as Hkk; [by subst|].
  destruct (delete_from_trie_lookup heap key trie key' Hk Hk')
    as (r' & E' & _ & Hl).
  rewrite E in E'. injection E' as <-. rewrite Hl, Hret. simpl.
  by rewrite bool_decide_eq_false_2.
Qed.

Lemma delete_then_add_restores_witness :
  let trie :=
    snd (add_to_trie 2 "abc" 2 (snd (add_to_trie 2 "ad" 1 empty_trie))) in
  ∃ r, delete_from_trie 1 trie "abc" = Some r
       ∧ d_freed r = [[0; 1; 2]; [0; 1]]
       ∧ add_to_trie 2 "abc" 2 (d_trie r) = (TRUE, trie).
Proof.
  intros trie.
  assert (valid_key "ad") as Had by (by apply valid_key_intro).
  assert (valid_key "abc") as Hk by (by apply valid_key_intro).
  assert (canonical trie) as Hc.
  { apply (canonical_add 2 "abc" 2 _ Hk); [|reflexivity].
    by apply (canonical_add 2 "ad" 1 empty_trie Had canonical_empty). }
  destruct (delete_then_add_restores 1 "abc" 2 trie Hc Hk)
    as (r & E & _ & Hadd); [reflexivity | lia |].
  exists r. split; [done|].
  assert (d_freed r = [[0; 1; 2]; [0; 1]]
          ∧ fst (add_to_trie 2 "abc" 2 (d_trie r)) = TRUE) as [Hf Hs].
  { vm_compute in E. injection E as <-. split; reflexivity. }
  split; [done | by apply Hadd].
Defined.

(** ** The trie [create_trie] returns *)

(** X14.  [create_trie] answers [NULL] exactly when the allocator cannot
    grant its two blocks.  The trie it returns otherwise is empty: every
    lookup and every delete on it fails, whatever the key, the delete
    leaving it as it is, and [destroy_trie] passes its assertions on it
    right away. *)
Theorem create_trie_fresh heap :
  match create_trie heap with
  | None => heap < 2
  | Some trie =>
      2 ≤ heap
      ∧ (∀ key, lookup_in_trie trie key = None)
      ∧ (∀ heap' key,
           delete_from_trie heap' trie key = Some (mk_del FALSE trie []))
      ∧ destroy_trie trie = Destroyed
      ∧ canonical trie
  end.
Proof.
  destruct (create_trie heap) as [trie|] eqn:E.
  - apply create_trie_Some in E as [Hh ->]. split; [done|].
    split; [apply lookup_in_trie_empty_trie|].
    split; [intros; apply delete_from_empty_trie|].
    split; [reflexivity | apply canonical_empty].
  - destruct heap as [|[|h]]; [lia | lia | done].
Qed.

(** ** The nodes [add_to_trie] links *)

Lemma deref_fields_cons node v b i q :
  deref (set_has_value (set_value node v) b) (i :: q) = deref node (i :: q).
Proof. done. Qed.

Lemma add_loop_deref_back heap key v node q :
  wf_node node = true → Forall (λ ch, lower_case ch = true) key →
  is_Some (deref (snd (add_loop heap key v node)) q) →
  is_Some (deref node q) ∨ (q ≠ [] ∧ q `prefix_of` path_of key).
Proof.
  intros Hwf Hk. revert heap node q Hwf.
  induction Hk as [|ch rest Hch Hk IH]; intros heap node q Hwf Hq.
  - left. destruct q as [|i q]; [by eexists|].
    cbn [add_loop snd] in Hq. by rewrite deref_fields_cons in Hq.
  - destruct (add_loop_cons v heap ch rest node)
      as [(_ & _ & E)|(nxt & heap' & E & Hnxt)]; rewrite E in Hq;
      [by left|].
    cbn [snd] in Hq. destruct q as [|j q]; [left; by eexists|].
    destruct (lower_case_index ch Hch) as [_ Hi].
    pose proof (wf_node_length _ Hwf) as Hlen.
    cbn [deref] in Hq. destruct (decide (key_to_index ch = j)) as [<-|Hne].
    + rewrite get_child_set_child_eq in Hq by (by rewrite Hlen).
      assert (wf_node nxt = true) as Hwf'.
      { destruct Hnxt as [[E' _]|(_ & -> & _)];
          [by eapply wf_node_child | apply wf_zero_node]. }
      destruct (IH heap' nxt q Hwf' Hq) as [Hold|[Hne Hpre]].
      * destruct Hnxt as [[E' _]|(_ & -> & _)].
        -- left. cbn [deref]. by rewrite E'.
        -- right. split; [done|].
           destruct q as [|k q].
           ++ cbn [path_of fmap list_fmap]. by apply prefix_cons, prefix_nil.
           ++ cbn [deref] in Hold. rewrite get_child_zero_node in Hold.
              by destruct Hold.
      * right. split; [done|]. cbn [path_of fmap list_fmap].
        by apply prefix_cons.
    + rewrite get_child_set_child_ne in Hq by done. left. done.
Qed.

(** X15.  [add_to_trie] links nodes on the path of its key only: a pointer
    that reaches a node after the call reached one before it or runs along
    the key.  It unlinks none, and it leaves the fields of every node off
    the end of the key's path as they were. *)
Theorem add_links_on_path_only heap key v trie :
  wf_trie trie → key_permitted key = TRUE →
  let trie' := snd (add_to_trie heap key v trie) in
  let xs := path_of (list_ascii_of_string key) in
  (∀ p, is_Some (deref (t_child trie') p) →
        is_Some (deref (t_child trie) p) ∨ (p ≠ [] ∧ p `prefix_of` xs))
  ∧ (∀ p, is_Some (deref (t_child trie) p) →
          is_Some (deref (t_child trie') p))
  ∧ ∀ p, p ≠ xs → val_at (t_child trie') p = val_at (t_child trie) p.
Proof.
  intros Hwf Hk trie' xs. subst trie' xs.
  rewrite add_to_trie_permitted by done. cbn [snd t_child].
  apply key_permitted_loop_Forall in Hk.
  split; [|split].
  - intros p. by apply add_loop_deref_back.
  - intros p. by apply add_loop_deref_mono.
  - intros p Hp. rewrite add_loop_val_at by done.
    by rewrite bool_decide_eq_false_2, andb_false_r.
Qed.

Lemma add_links_on_path_only_witness :
  let trie := snd (add_to_trie 2 "ab" 1 empty_trie) in
  val_at (t_child (snd (add_to_trie 1 "ac" 2 trie))) [0; 1] = Some 1%Z.
Proof.
  intros trie.
  destruct (add_links_on_path_only 1 "ac" 2 trie) as (_ & _ & Hv);
    [reflexivity | reflexivity |].
  rewrite Hv; [reflexivity | discriminate].
Defined.

(** ** When [destroy_trie] passes *)

(** X16.  On a trie without dead leaf [destroy_trie] passes its assertions
    exactly when no valid key is stored: the assertion trips as long as a
    lookup can still succeed, and only then. *)
Theorem destroy_iff_nothing_stored trie :
  wf_trie trie → tidy_trie trie →
  destroy_trie trie = Destroyed ↔
  ∀ key, valid_key key → lookup_in_trie trie key = None.
Proof.
  intros Hwf Ht. unfold destroy_trie. rewrite destroy_loop_spec.
  change (has_children_loop (n_child (t_child trie)))
    with (node_has_children (t_child trie)).
  split.
  - intros Hnc key Hk.
    rewrite lookup_in_trie_val_at by (by apply valid_key_permitted).
    destruct (valid_key_cons key Hk) as (ch & rest & -> & _).
    cbn [path_of fmap list_fmap]. rewrite val_at_cons.
    by rewrite (no_children_get _ _ Hnc).
  - intros Hl. apply not_true_is_false. intros Hc.
    destruct (has_children_stored trie Hwf Ht Hc) as (key & v & Hk & Hv).
    rewrite (Hl key Hk) in Hv. done.
Qed.

Lemma destroy_iff_nothing_stored_witness :
  let trie := snd (add_to_trie 2 "ab" 1 empty_trie) in
  lookup_in_trie trie "ab" = Some 1%Z ∧ destroy_trie trie = AssertionFailed.
Proof.
  intros trie. split; [reflexivity|].
  destruct (destroy_trie trie) eqn:Hd; [exfalso | reflexivity].
  assert (lookup_in_trie trie "ab" = None) as Hl.
  { apply (destroy_iff_nothing_stored trie);
      [reflexivity | reflexivity | exact Hd | by apply valid_key_intro]. }
  discriminate Hl.
Defined.

(** ** Retrying an insert that ran out of memory *)

Lemma add_loop_missing heap key v node :
  wf_node node = true → Forall (λ ch, lower_case ch = true) key →
  missing key (snd (add_loop heap key v node)) = missing key node - heap.
Proof.
  intros Hwf Hk. revert heap node Hwf.
  induction Hk as [|ch rest Hch Hk IH]; intros heap node Hwf; [done|].
  pose proof (wf_node_length _ Hwf) as Hlen.
  destruct (lower_case_index ch Hch) as [_ Hi].
  cbn [add_loop].
  destruct (get_child node (key_to_index ch)) as [nxt|] eqn:E.
  - cbn [snd missing].
    rewrite get_child_set_child_eq, E by (by rewrite Hlen).
    apply IH. by eapply wf_node_child.
  - destruct heap as [|h]; cbn [malloc snd].
    + cbn [missing]. rewrite E. lia.
    + cbn [missing]. rewrite get_child_set_child_eq, E by (by rewrite Hlen).
      rewrite IH by apply wf_zero_node. rewrite missing_fresh.
      cbn [length]. lia.
Qed.

(** X17.  Every node an insert is granted stays linked, also when the
    insert then runs out of memory: after the call the key misses as many
    nodes fewer as the allocator granted.  So a second insert of the key
    succeeds exactly when the two budgets together cover what was missing
    at first. *)
Theorem add_to_trie_retry heap heap' key v v' trie :
  wf_trie trie → key_permitted key = TRUE →
  let k := list_ascii_of_string key in
  let trie' := snd (add_to_trie heap key v trie) in
  missing k (t_child trie') = missing k (t_child trie) - heap
  ∧ (fst (add_to_trie heap' key v' trie') = TRUE ↔
     missing k (t_child trie) ≤ heap + heap').
Proof.
  intros Hwf Hk k trie'.
  assert (missing k (t_child trie') = missing k (t_child trie) - heap) as Hm.
  { subst k trie'. rewrite add_to_trie_permitted by done. cbn [snd t_child].
    apply add_loop_missing; [done | by apply key_permitted_loop_Forall]. }
  split; [done|].
  rewrite add_to_trie_permitted by done. cbn [fst].
  rewrite add_loop_succeeds. fold k. rewrite Hm. lia.
Qed.

Lemma add_to_trie_retry_witness :
  let trie' := snd (add_to_trie 2 "abc" 1 empty_trie) in
  fst (add_to_trie 2 "abc" 1 empty_trie) = FALSE
  ∧ missing (list_ascii_of_string "abc") (t_child trie') = 1
  ∧ fst (add_to_trie 1 "abc" 1 trie') = TRUE.
Proof.
  intros trie'. split; [reflexivity|].
  destruct (add_to_trie_retry 2 1 "abc" 1 1 empty_trie) as [Hm Hs];
    [reflexivity | reflexivity |].
  split; [exact Hm | apply Hs; simpl; lia].
Defined.

(** ** Deleting a key of one character, and the only key of a trie *)









(** ** The scenarios of the specification, run on the model *)

(** The calls of [main.c], in order, with their results. *)
Example main_walkthrough :
  create_trie 2 = Some empty_trie
  ∧ match run [Add 2 "aa" 1; Add 1 "ab" 2; Add 1 "ac" 3] empty_trie with
    | None => False
    | Some (trace1, t1) =>
        trace1.*2 = [true; true; true]
        ∧ lookup_in_trie t1 "aa" = Some 1%Z
        ∧ lookup_in_trie t1 "ab" = Some 2%Z
        ∧ lookup_in_trie t1 "ac" = Some 3%Z
        ∧ lookup_in_trie t1 "ad" = None
        ∧ match run [Del 1 "ab"; Add 2 "aaak" 10] t1 with
          | None => False
          | Some (trace2, t2) =>
              trace2.*2 = [true; true]
              ∧ lookup_in_trie t2 "aaak" = Some 10%Z
              ∧ match run [Del 1 "aa"; Del 1 "ac"; Del 1 "ab"; Del 1 "aaak"]
                        t2 with
                | None => False
                | Some (trace3, t3) =>
                    trace3.*2 = [true; true; false; true]
                    ∧ t3 = empty_trie
                    ∧ destroy_trie t3 = Destroyed
                end
          end
    end.
Proof. vm_compute. repeat split. Qed.

(** A key that is a prefix of another one is deleted without releasing a
    node; the longer key stays. *)
Example prefix_independence :
  match run [Add 2 "ab" 1; Add 1 "abc" 2] empty_trie with
  | None => False
  | Some (trace, t) =>
      trace.*2 = [true; true]
      ∧ match delete_from_trie 1 t "ab" with
        | None => False
        | Some r =>
            d_ret r = TRUE ∧ d_freed r = []
            ∧ lookup_in_trie (d_trie r) "abc" = Some 2%Z
            ∧ lookup_in_trie (d_trie r) "ab" = None
        end
  end.
Proof. vm_compute. repeat split. Qed.

(** Of three siblings one is deleted: only its own node is released. *)
Example sibling_independence :
  match run [Add 2 "aa" 1; Add 1 "ab" 2; Add 1 "ac" 3] empty_trie with
  | None => False
  | Some (trace, t) =>
      trace.*2 = [true; true; true]
      ∧ match delete_from_trie 1 t "ab" with
        | None => False
        | Some r =>
            d_ret r = TRUE ∧ d_freed r = [[0; 1]]
            ∧ lookup_in_trie (d_trie r) "aa" = Some 1%Z
            ∧ lookup_in_trie (d_trie r) "ac" = Some 3%Z
            ∧ lookup_in_trie (d_trie r) "ab" = None
        end
  end.
Proof. vm_compute. repeat split. Qed.
